(** * VoxInput [src/c_ext/rms.c]: RMS level and PCM-to-float32 conversion

    A shallow embedding of the two exported C routines

    - [double vox_rms_int16(const int16_t* samples, int n)]
    - [void vox_pcm_to_float32(const int16_t* samples, float* out, int n)]

    over IEEE 754 arithmetic as specified by the Standard Library's
    [SpecFloat] (binary64 for [double], binary32 for [float]) and a typed
    memory threaded through a state-and-error monad, followed by the
    properties the specification states about them. *)

From Stdlib Require Import ZArith QArith Lia.
From Stdlib Require Import Floats.SpecFloat.
From stdpp Require Import gmap list.

Local Open Scope Z_scope.

(** ** IEEE 754 arithmetic *)

(** [double] is binary64: 53 bits of precision, [emax = 1024].
    [float] is binary32: 24 bits of precision, [emax = 128].
    Every operation rounds to nearest, ties to even. *)

Definition d_prec : Z := 53.
Definition d_emax : Z := 1024.
Definition f_prec : Z := 24.
Definition f_emax : Z := 128.

(** [(double)x] for an integer [x]. *)
Definition double_of_int (x : Z) : spec_float :=
  binary_normalize d_prec d_emax x 0 false.

(** [(float)x] for an integer [x]. *)
Definition float_of_int (x : Z) : spec_float :=
  binary_normalize f_prec f_emax x 0 false.

(** [+], [*], [/] and [sqrt] on [double]; [/] on [float]. *)
Definition d_add (x y : spec_float) : spec_float := SFadd d_prec d_emax x y.
Definition d_mul (x y : spec_float) : spec_float := SFmul d_prec d_emax x y.
Definition d_div (x y : spec_float) : spec_float := SFdiv d_prec d_emax x y.
Definition d_sqrt (x : spec_float) : spec_float := SFsqrt d_prec d_emax x.
Definition f_div (x y : spec_float) : spec_float := SFdiv f_prec f_emax x y.

(** The literal [0.0]. *)
Definition d_zero : spec_float := S754_zero false.

(** The literal [32768.0f], that is [2^23 * 2^-8]. *)
Definition f_32768 : spec_float := S754_finite false 8388608 (-8).

(** The binary32 values [-1.0] and [1.0]. *)
Definition f_minus_one : spec_float := S754_finite true 8388608 (-23).
Definition f_one : spec_float := S754_finite false 8388608 (-23).

(** The exact rational value of a finite float; [None] for infinities and
    NaN. *)
Definition SFval (x : spec_float) : option Q :=
  match x with
  | S754_zero _ => Some 0%Q
  | S754_finite s m e => Some (inject_Z (cond_Zopp s (Zpos m)) * Qpower 2 e)%Q
  | S754_infinity _ | S754_nan => None
  end.

(** [represents x q]: the float [x] is finite and its value is exactly [q]. *)
Definition represents (x : spec_float) (q : Q) : Prop :=
  match SFval x with
  | Some v => (v == q)%Q
  | None => False
  end.

Definition representsb (x : spec_float) (q : Q) : bool :=
  match SFval x with
  | Some v => Qeq_bool v q
  | None => false
  end.

(** [has_sign s x]: [x] is not NaN and its sign bit is [s]. *)
Definition has_sign (s : bool) (x : spec_float) : Prop :=
  match x with
  | S754_zero s' | S754_infinity s' | S754_finite s' _ _ => s' = s
  | S754_nan => False
  end.

(** A float that is neither NaN nor negative: [+0.0], a positive finite
    number or [+inf]. *)
Definition nonneg_float (x : spec_float) : Prop := has_sign false x.

Definition is_nan (x : spec_float) : bool :=
  match x with
  | S754_nan => true
  | _ => false
  end.

#[global] Instance spec_float_eq_dec : EqDecision spec_float.
Proof. solve_decision. Defined.

(** ** Machine integers *)

(** The values of [int16_t] and of a 32-bit [int]. *)
Definition int16_range (s : Z) : Prop := -32768 <= s <= 32767.
Definition int_range (n : Z) : Prop := -2147483648 <= n <= 2147483647.

(** ** Memory *)

(** Memory is typed: the [int16_t] objects and the [float] objects live in
    separate maps, a pointer being the index of the object it points to and
    [p + i] the address of [p[i]].  An address outside a map is not
    allocated.  No object is both an [int16_t] and a [float]: C's
    effective-type rule forbids reading through [samples] what was
    written through [out]. *)
Record mem : Type := Mem {
  i16 : gmap Z Z;
  f32 : gmap Z spec_float
}.

(** Computations read and write the memory and fail ([None]) where C
    leaves the behaviour undefined: on an access outside an allocated
    object. *)
Definition M (A : Type) : Type := mem -> option (A * mem).

Definition ret {A : Type} (a : A) : M A := fun m => Some (a, m).

Definition bind {A B : Type} (c : M A) (k : A -> M B) : M B :=
  fun m =>
    match c m with
    | Some (a, m') => k a m'
    | None => None
    end.

Notation "'let*' x ':=' c 'in' k" := (bind c (fun x => k))
  (at level 10, x name, c at level 200, k at level 200).

(** [*p] for [const int16_t* p]. *)
Definition load_i16 (p : Z) : M Z :=
  fun m =>
    match i16 m !! p with
    | Some x => Some (x, m)
    | None => None
    end.

(** [*p = v] for [float* p]. *)
Definition store_f32 (p : Z) (v : spec_float) : M unit :=
  fun m =>
    match f32 m !! p with
    | Some _ => Some (tt, Mem (i16 m) (<[p := v]> (f32 m)))
    | None => None
    end.

(** ** The two routines *)

(** The loop body on the sample [x] just read:
    [double s = (double)x; sum += s * s;]. *)
Definition rms_step (sum : spec_float) (x : Z) : spec_float :=
  let s := double_of_int x in
  d_add sum (d_mul s s).

(** The loop [for (int i = 0; i < n; i++) { double s = (double)samples[i];
    sum += s * s; }] at index [i] with [k = n - i] iterations left to
    run; [i] stays below [n], so [i++] does not overflow. *)
Fixpoint rms_loop (samples : Z) (k : nat) (i : Z) (sum : spec_float)
  : M spec_float :=
  match k with
  | O => ret sum
  | S k' =>
      let* x := load_i16 (samples + i) in
      rms_loop samples k' (i + 1) (rms_step sum x)
  end.

Definition vox_rms_int16 (samples : Z) (n : Z) : M spec_float :=
  if n <=? 0 then ret d_zero
  else
    let* sum := rms_loop samples (Z.to_nat n) 0 d_zero in
    ret (d_sqrt (d_div sum (double_of_int n))).

(** The value stored for one sample: [(float)x / 32768.0f]. *)
Definition pcm_scale (x : Z) : spec_float := f_div (float_of_int x) f_32768.

(** The loop [for (int i = 0; i < n; i++) out[i] = (float)samples[i] /
    32768.0f;] at index [i] with [k = n - i] iterations left to run. *)
Fixpoint pcm_loop (samples out : Z) (k : nat) (i : Z) : M unit :=
  match k with
  | O => ret tt
  | S k' =>
      let* x := load_i16 (samples + i) in
      let* _ := store_f32 (out + i) (pcm_scale x) in
      pcm_loop samples out k' (i + 1)
  end.

Definition vox_pcm_to_float32 (samples out : Z) (n : Z) : M unit :=
  if n <=? 0 then ret tt
  else pcm_loop samples out (Z.to_nat n) 0.

(** ** Buffers *)

(** [array_i16 m p buf]: the [length buf] objects of type [int16_t] from
    address [p] on are allocated in [m] and hold the samples [buf], each a
    value of [int16_t]. *)
Fixpoint array_i16 (m : mem) (p : Z) (buf : list Z) : Prop :=
  match buf with
  | [] => True
  | s :: buf' =>
      i16 m !! p = Some s /\ int16_range s /\ array_i16 m (p + 1) buf'
  end.

(** [array_f32 m p obuf]: the [length obuf] objects of type [float] from
    address [p] on are allocated in [m] and hold the values [obuf]. *)
Fixpoint array_f32 (m : mem) (p : Z) (obuf : list spec_float) : Prop :=
  match obuf with
  | [] => True
  | v :: obuf' => f32 m !! p = Some v /\ array_f32 m (p + 1) obuf'
  end.

(** ** The specification's formulas *)

(** Follows the spec's words: [sum(s_i^2 for s_i in S)] for the buffer
    [S = buf], each square an exact integer, the sum accumulated from
    [0.0] in 64-bit floating point in the order of the buffer. *)
Definition sum_sq (buf : list Z) : spec_float :=
  fold_left (fun acc s => d_add acc (double_of_int (s * s))) buf d_zero.

(** Follows the spec's words: [sqrt(sum(s_i^2 for s_i in S) / N)] with
    [N] the length of the buffer, the square root taken once at the
    end. *)
Definition rms_spec (buf : list Z) : spec_float :=
  d_sqrt (d_div (sum_sq buf) (double_of_int (Z.of_nat (length buf)))).

(** ** A memory to run the routines on *)

(** Four samples at address 100, among them the two extreme values of
    [int16_t], and a buffer of five floats at address 7. *)
Definition demo_samples : list Z := [3; 4; -32768; 32767].

Definition demo_out : list spec_float :=
  [f_one; f_one; f_one; f_one; S754_nan].

Definition demo_mem : mem :=
  Mem (list_to_map [(100, 3); (101, 4); (102, -32768); (103, 32767)])
      (list_to_map
         [(7, f_one); (8, f_one); (9, f_one); (10, f_one); (11, S754_nan)]).

(** The same two buffers in a memory that differs everywhere else: one
    more sample object, another value in the fifth float. *)
Definition demo_mem' : mem :=
  Mem (list_to_map
         [(100, 3); (101, 4); (102, -32768); (103, 32767); (500, 77)])
      (list_to_map
         [(7, f_one); (8, f_one); (9, f_one); (10, f_one); (11, d_zero)]).

(** Three samples, all zero, at address 0. *)
Definition zero_mem : mem :=
  Mem (list_to_map [(0, 0); (1, 0); (2, 0)]) ∅.

(** Four samples of magnitude 5 at address 0. *)
Definition fives_mem : mem :=
  Mem (list_to_map [(0, -5); (1, 5); (2, 5); (3, -5)]) ∅.

(** ** Checking a property on every value of a range *)

(** [forall_from lo k P]: [P] holds on [lo], [lo + 1], ..., [lo + k - 1]. *)
Fixpoint forall_from (lo : Z) (k : nat) (P : Z -> bool) : bool :=
  match k with
  | O => true
  | S k' => P lo && forall_from (lo + 1) k' P
  end.

Definition forall_int16 (P : Z -> bool) : bool :=
  forall_from (-32768) (Z.to_nat 65536) P.

(** The square of a sample computed in [double] is the exact integer
    square. *)
Definition square_ok (x : Z) : bool :=
  bool_decide
    (d_mul (double_of_int x) (double_of_int x) = double_of_int (x * x)).

(** The scaled sample is exactly [x / 32768], lies in [[-1.0, 1.0)] and is
    not above the scaled next sample. *)
Definition pcm_scale_ok (x : Z) : bool :=
  let v := pcm_scale x in
  representsb v (x # 32768)
  && SFleb f_minus_one v
  && SFltb v f_one
  && (if x <? 32767 then SFleb v (pcm_scale (x + 1)) else true).

(** ** Measures used in the further properties *)

(** [pshift c k]: the mantissa [c] moved [k >= 0] binary places to the
    left, [c * 2^k]. *)
Definition pshift (c : positive) (k : Z) : positive :=
  match k with
  | Zpos d => Pos.iter xO c d
  | _ => c
  end.

(** The exact integer sum of the squares of a buffer. *)
Fixpoint int_sum_sq (buf : list Z) : Z :=
  match buf with
  | [] => 0
  | s :: buf' => s * s + int_sum_sq buf'
  end.

(** The level of a one-sample buffer holding magnitude [a] is [a]. *)
Definition single_ok (a : Z) : bool :=
  bool_decide
    (d_sqrt (d_div (d_add d_zero (double_of_int (a * a))) (double_of_int 1)) =
     double_of_int a).

(** [pow2_le k x]: the float [x] is positive, finite or infinite, and at
    least [2^k]. *)
Definition pow2_le (k : Z) (x : spec_float) : Prop :=
  match x with
  | S754_infinity false => True
  | S754_finite false m e => k <= Z.log2 (Zpos m) + e
  | _ => False
  end.

(** [ub b c x]: the float [x] is [+0.0] or positive and finite, of value
    at most [b * 2^c]. *)
Definition ub (b c : Z) (x : spec_float) : Prop :=
  match x with
  | S754_zero false => True
  | S754_finite false m e => e <= c /\ Zpos m <= b * 2 ^ (c - e)
  | _ => False
  end.

(** What rounding up can add to a mantissa. *)
Definition loc_carry (l : location) : Z :=
  match l with
  | loc_Exact => 0
  | loc_Inexact _ => 1
  end.

(** The mantissa of a shift record rounded up. *)
Definition shr_ceil (mrs : shr_record) : Z :=
  shr_m mrs + loc_carry (loc_of_shr_record mrs).


(** The demo samples in another order at address 200, and with other
    signs at address 300. *)
Definition perm_samples : list Z := [4; 3; 32767; -32768].

Definition flip_samples : list Z := [-3; -4; -32768; -32767].

Definition perm_mem : mem :=
  Mem (list_to_map
         [(200, 4); (201, 3); (202, 32767); (203, -32768);
          (300, -3); (301, -4); (302, -32768); (303, -32767)])
      ∅.

(** * Properties *)

(** ** Rounding *)

Section Rounding.
Variables prec emax : Z.

Lemma iter_pos_shr_1_nonneg (p : positive) :
  forall mrs, 0 <= shr_m mrs -> 0 <= shr_m (SpecFloat.iter_pos shr_1 p mrs).
Proof.
  assert (H1 : forall mrs, 0 <= shr_m mrs -> 0 <= shr_m (shr_1 mrs)).
  { intros [[|[q|q|]|q] r s] H; simpl in *; lia. }
  induction p as [p IH|p IH|]; intros mrs H; simpl; auto.
Qed.

Lemma shr_nonneg (mrs : shr_record) (e n : Z) :
  0 <= shr_m mrs -> 0 <= shr_m (fst (shr mrs e n)).
Proof.
  intros H. destruct n; simpl; auto using iter_pos_shr_1_nonneg.
Qed.

Lemma shr_record_of_loc_m (m : Z) (l : location) :
  shr_m (shr_record_of_loc m l) = m.
Proof. destruct l as [|[]]; reflexivity. Qed.

Lemma shr_fexp_nonneg (m e : Z) (l : location) :
  0 <= m -> 0 <= shr_m (fst (shr_fexp prec emax m e l)).
Proof.
  intros H. unfold shr_fexp. apply shr_nonneg.
  now rewrite shr_record_of_loc_m.
Qed.

Lemma round_nearest_even_nonneg (m : Z) (l : location) :
  0 <= m -> 0 <= round_nearest_even m l.
Proof.
  intros H. destruct l as [|[]]; simpl; try lia.
  destruct (Z.even m); lia.
Qed.

(** Rounding a non-negative mantissa never gives NaN and keeps the sign. *)
Lemma binary_round_aux_sign (s : bool) (m e : Z) (l : location) :
  0 <= m -> has_sign s (binary_round_aux prec emax s m e l).
Proof.
  intros H. unfold binary_round_aux.
  pose proof (shr_fexp_nonneg m e l H) as H1.
  destruct (shr_fexp prec emax m e l) as [mrs' e']. simpl in H1.
  pose proof (round_nearest_even_nonneg _ (loc_of_shr_record mrs') H1) as H2.
  pose proof (shr_fexp_nonneg _ e' loc_Exact H2) as H3.
  destruct (shr_fexp prec emax _ e' loc_Exact) as [mrs'' e'']. simpl in H3.
  destruct (shr_m mrs'') as [|q|q]; simpl; [reflexivity| |lia].
  destruct (e'' <=? emax - prec); reflexivity.
Qed.

Lemma binary_round_sign (s : bool) (m : positive) (e : Z) :
  has_sign s (binary_round prec emax s m e).
Proof.
  unfold binary_round.
  destruct (shl_align m e _) as [mz ez].
  apply binary_round_aux_sign. lia.
Qed.

(** A mantissa that already has the format's shape is left as it is. *)
Lemma binary_round_aux_canonical (s : bool) (m : positive) (e : Z) :
  fexp prec emax (Zpos (digits2_pos m) + e) = e ->
  e <= emax - prec ->
  binary_round_aux prec emax s (Zpos m) e loc_Exact = S754_finite s m e.
Proof.
  intros Hc He. unfold binary_round_aux, shr_fexp. simpl Zdigits2.
  rewrite Hc, Z.sub_diag. simpl. rewrite Hc, Z.sub_diag. simpl.
  apply Z.leb_le in He. now rewrite He.
Qed.

Lemma digits2_pos_iter_xO (d m : positive) :
  digits2_pos (Pos.iter xO m d) = (digits2_pos m + d)%positive.
Proof.
  induction d as [|d IH] using Pos.peano_ind.
  - simpl. lia.
  - rewrite Pos.iter_succ. simpl. rewrite IH. lia.
Qed.

(** An integer mantissa of at most [prec] digits, above the subnormal
    range, converts without rounding. *)
Lemma binary_round_finite (s : bool) (m : positive) (e : Z) :
  fexp prec emax (Zpos (digits2_pos m) + e) <= e ->
  e <= emax - prec ->
  exists mz ez, binary_round prec emax s m e = S754_finite s mz ez.
Proof.
  intros Hd He. unfold binary_round, shl_align.
  set (e' := fexp prec emax (Zpos (digits2_pos m) + e)) in *.
  destruct (e' - e) as [|q|q] eqn:Hq; try lia.
  - exists m, e. apply binary_round_aux_canonical; [fold e'|]; lia.
  - exists (Pos.iter xO m q), e'.
    apply binary_round_aux_canonical; [|lia].
    rewrite digits2_pos_iter_xO.
    replace (Zpos (digits2_pos m + q) + e') with (Zpos (digits2_pos m) + e)
      by lia.
    reflexivity.
Qed.
End Rounding.

(** ** Literals and conversions from integers *)

Lemma d_zero_literal : d_zero = double_of_int 0.
Proof. reflexivity. Qed.

Lemma f_32768_literal :
  f_32768 = float_of_int 32768 /\ represents f_32768 32768.
Proof. split; reflexivity. Qed.

Lemma digits2_pos_lower (p : positive) :
  2 ^ (Zpos (digits2_pos p) - 1) <= Zpos p.
Proof.
  induction p as [p IH|p IH|]; simpl digits2_pos.
  - rewrite Pos2Z.inj_succ.
    replace (Z.succ (Zpos (digits2_pos p)) - 1)
      with (Z.succ (Zpos (digits2_pos p) - 1)) by lia.
    rewrite Z.pow_succ_r by lia. lia.
  - rewrite Pos2Z.inj_succ.
    replace (Z.succ (Zpos (digits2_pos p)) - 1)
      with (Z.succ (Zpos (digits2_pos p) - 1)) by lia.
    rewrite Z.pow_succ_r by lia. lia.
  - simpl. lia.
Qed.

Lemma digits2_pos_bound (p : positive) (k : Z) :
  0 <= k -> Zpos p < 2 ^ k -> Zpos (digits2_pos p) <= k.
Proof.
  intros Hk Hp.
  destruct (Z_le_gt_dec (Zpos (digits2_pos p)) k) as [|Hgt]; [assumption|].
  pose proof (digits2_pos_lower p) as Hlow.
  assert (2 ^ k <= 2 ^ (Zpos (digits2_pos p) - 1))
    by (apply Z.pow_le_mono_r; lia).
  lia.
Qed.

(** [(double)x] is never NaN and carries the sign of [x]. *)
Lemma double_of_int_sign (x : Z) : has_sign (x <? 0) (double_of_int x).
Proof.
  destruct x as [|p|p]; simpl; [reflexivity| |];
    apply binary_round_sign.
Qed.

(** A non-zero integer below [2^53] in magnitude converts to a finite
    non-zero [double] of the same sign. *)
Lemma double_of_int_finite (x : Z) :
  x <> 0 -> Z.abs x < 2 ^ 53 ->
  exists m e, double_of_int x = S754_finite (x <? 0) m e.
Proof.
  intros Hx Hb. unfold double_of_int, binary_normalize.
  destruct x as [|p|p]; [lia| |];
    (apply binary_round_finite;
     [ pose proof (digits2_pos_bound p 53 ltac:(lia) ltac:(simpl in Hb; lia));
       unfold fexp, emin, d_prec, d_emax; lia
     | unfold d_prec, d_emax; lia ]).
Qed.

(** ** Signs of the arithmetic operations *)

Lemma d_mul_self_nonneg (x : spec_float) :
  is_nan x = false -> nonneg_float (d_mul x x).
Proof.
  intros Hx. destruct x as [s|s| |s m e]; simpl in *; try discriminate;
    try (now destruct s).
  unfold nonneg_float. replace false with (xorb s s) by (now destruct s).
  apply binary_round_aux_sign. lia.
Qed.

Lemma d_add_nonneg (x y : spec_float) :
  nonneg_float x -> nonneg_float y -> nonneg_float (d_add x y).
Proof.
  unfold nonneg_float.
  destruct x as [[]|[]| |[] mx ex], y as [[]|[]| |[] my ey];
    simpl; intros Hx Hy;
    try (discriminate || contradiction || reflexivity).
  apply binary_round_sign.
Qed.

Lemma div_eucl_quotient_nonneg (a : Z) (b : positive) :
  0 <= a -> 0 <= fst (Z.div_eucl a (Zpos b)).
Proof.
  intros Ha. change (fst (Z.div_eucl a (Zpos b))) with (a / Zpos b).
  apply Z.div_pos; lia.
Qed.

Lemma d_div_nonneg (x : spec_float) (m : positive) (e : Z) :
  nonneg_float x -> nonneg_float (d_div x (S754_finite false m e)).
Proof.
  unfold nonneg_float.
  destruct x as [[]|[]| |[] mx ex]; simpl; intros Hx;
    try (discriminate || contradiction || reflexivity).
  unfold SFdiv_core_binary.
  match goal with
  | |- context [Z.div_eucl ?a (Zpos m)] =>
      pose proof (div_eucl_quotient_nonneg a m) as Hq;
      destruct (Z.div_eucl a (Zpos m)) as [q r]
  end.
  apply binary_round_aux_sign. apply Hq.
  match goal with |- 0 <= match ?s with _ => _ end => destruct s end;
    try lia.
  apply Z.shiftl_nonneg. lia.
Qed.

Lemma d_sqrt_nonneg (x : spec_float) :
  nonneg_float x -> nonneg_float (d_sqrt x).
Proof.
  unfold nonneg_float.
  destruct x as [[]|[]| |[] mx ex]; simpl; intros Hx;
    try (discriminate || contradiction || reflexivity).
  unfold SFsqrt_core_binary.
  match goal with
  | |- context [Z.sqrtrem ?a] =>
      pose proof (Z.sqrtrem_sqrt a) as Hq;
      pose proof (Z.sqrt_nonneg a) as Hs;
      destruct (Z.sqrtrem a) as [q r]
  end.
  simpl in Hq. subst q.
  apply binary_round_aux_sign. assumption.
Qed.

Lemma nonneg_float_leb (x : spec_float) :
  nonneg_float x -> SFleb d_zero x = true /\ is_nan x = false.
Proof. destruct x as [[]|[]| |[] m e]; simpl; intuition discriminate. Qed.

(** ** Memory and buffers *)

Lemma forall_from_spec (P : Z -> bool) (k : nat) :
  forall lo, forall_from lo k P = true ->
  forall x, lo <= x < lo + Z.of_nat k -> P x = true.
Proof.
  induction k as [|k IH]; intros lo H x Hx; [lia|].
  simpl in H. apply andb_prop in H as [H0 H1].
  destruct (Z.eq_dec x lo) as [->|Hne]; [assumption|].
  apply (IH (lo + 1)); [assumption|lia].
Qed.

Lemma forall_int16_spec (P : Z -> bool) :
  forall_int16 P = true -> forall x, int16_range x -> P x = true.
Proof.
  unfold forall_int16, int16_range. intros H x Hx.
  assert (Hk : Z.of_nat (Z.to_nat 65536) = 65536) by (apply Z2Nat.id; lia).
  revert H Hk. generalize (Z.to_nat 65536). intros k H Hk.
  apply (forall_from_spec P k (-32768) H). lia.
Qed.

Lemma array_i16_lookup (m : mem) (buf : list Z) :
  forall p (i : nat) s,
    array_i16 m p buf -> buf !! i = Some s ->
    i16 m !! (p + Z.of_nat i) = Some s /\ int16_range s.
Proof.
  induction buf as [|s0 buf IH]; intros p i s HA Hi; [discriminate|].
  destruct HA as (H0 & Hr & HA). destruct i as [|i]; simpl in Hi.
  - injection Hi as <-. rewrite Z.add_0_r. auto.
  - replace (p + Z.of_nat (S i)) with (p + 1 + Z.of_nat i) by lia.
    now apply IH.
Qed.

Lemma array_i16_range (m : mem) (buf : list Z) :
  forall p, array_i16 m p buf -> Forall int16_range buf.
Proof.
  induction buf as [|s0 buf IH]; intros p HA; constructor.
  - apply HA.
  - apply (IH (p + 1)), HA.
Qed.

Lemma array_f32_lookup (m : mem) (obuf : list spec_float) :
  forall p (i : nat) v,
    array_f32 m p obuf -> obuf !! i = Some v ->
    f32 m !! (p + Z.of_nat i) = Some v.
Proof.
  induction obuf as [|v0 obuf IH]; intros p i v HA Hi; [discriminate|].
  destruct HA as (H0 & HA). destruct i as [|i]; simpl in Hi.
  - injection Hi as <-. now rewrite Z.add_0_r.
  - replace (p + Z.of_nat (S i)) with (p + 1 + Z.of_nat i) by lia.
    now apply IH.
Qed.

(** A buffer of samples is a property of the [int16_t] objects alone. *)
Lemma array_i16_ext (m m' : mem) (buf : list Z) :
  i16 m' = i16 m -> forall p, array_i16 m p buf -> array_i16 m' p buf.
Proof.
  intros E. induction buf as [|s0 buf IH]; intros p HA; [exact I|].
  destruct HA as (H0 & Hr & HA). simpl. rewrite E. auto.
Qed.

(** A buffer of floats is a property of the cells it covers. *)
Lemma array_f32_ext (m m' : mem) (obuf : list spec_float) :
  forall p,
    (forall a, p <= a < p + Z.of_nat (length obuf) ->
               f32 m' !! a = f32 m !! a) ->
    array_f32 m p obuf -> array_f32 m' p obuf.
Proof.
  induction obuf as [|v0 obuf IH]; intros p E HA; [exact I|].
  destruct HA as (H0 & HA). simpl in *. split.
  - rewrite E by lia. assumption.
  - apply IH; [|assumption]. intros a Ha. apply E. lia.
Qed.

(** ** The loops *)

(** The RMS loop only reads: it hands the memory back as it found it. *)
Lemma rms_loop_mem (samples : Z) (k : nat) :
  forall i sum m v m',
    rms_loop samples k i sum m = Some (v, m') -> m' = m.
Proof.
  induction k as [|k IH]; intros i sum m v m' H; simpl in H.
  - unfold ret in H. congruence.
  - unfold bind, load_i16 in H.
    destruct (i16 m !! (samples + i)) as [x|]; [|discriminate].
    now apply IH in H.
Qed.

(** On a buffer holding [buf] the RMS loop returns the running sum of the
    squares computed as [(double)x * (double)x]. *)
Lemma rms_loop_run (samples : Z) (buf : list Z) :
  forall i sum m,
    array_i16 m (samples + i) buf ->
    rms_loop samples (length buf) i sum m =
      Some (fold_left rms_step buf sum, m).
Proof.
  induction buf as [|s0 buf IH]; intros i sum m HA; [reflexivity|].
  destruct HA as (H0 & _ & HA). simpl.
  unfold bind at 1, load_i16. rewrite H0.
  apply IH. now rewrite <- Z.add_assoc in HA.
Qed.

(** The conversion loop leaves the samples, the set of allocated objects
    and every [float] outside [out[i .. i + k)] as they were. *)
Lemma pcm_loop_frame (samples out : Z) (k : nat) :
  forall i m u m',
    pcm_loop samples out k i m = Some (u, m') ->
    i16 m' = i16 m /\
    dom (f32 m') = dom (f32 m) /\
    forall a, ~ (out + i <= a < out + i + Z.of_nat k) ->
              f32 m' !! a = f32 m !! a.
Proof.
  induction k as [|k IH]; intros i m u m' H; simpl in H.
  - unfold ret in H. injection H as _ <-. auto.
  - unfold bind, load_i16, store_f32 in H.
    destruct (i16 m !! (samples + i)) as [x|]; [|discriminate].
    destruct (f32 m !! (out + i)) as [v|] eqn:Hv; [|discriminate].
    apply IH in H as (Hi & Hd & Hf). simpl in *.
    split; [assumption|]. split.
    + rewrite Hd, dom_insert_L. apply subseteq_union_1_L.
      apply singleton_subseteq_l, elem_of_dom. eauto.
    + intros a Ha. rewrite Hf by lia. apply lookup_insert_ne. lia.
Qed.

(** On a buffer holding [buf] and an output buffer holding [obuf], at least as
    long, the conversion loop succeeds and leaves the output buffer
    holding the scaled samples followed by the rest of [obuf]. *)
Lemma pcm_loop_run (samples out : Z) (buf : list Z) :
  forall i m (obuf : list spec_float),
    array_i16 m (samples + i) buf ->
    array_f32 m (out + i) obuf ->
    (length buf <= length obuf)%nat ->
    exists m',
      pcm_loop samples out (length buf) i m = Some (tt, m') /\
      array_f32 m' (out + i) (map pcm_scale buf ++ drop (length buf) obuf).
Proof.
  induction buf as [|s0 buf IH]; intros i m obuf HA HO Hlen.
  - exists m. split; [reflexivity|]. simpl. now rewrite drop_0.
  - destruct obuf as [|v0 obuf]; [simpl in Hlen; lia|].
    destruct HA as (H0 & _ & HA). destruct HO as (Hv & HO).
    simpl in Hlen. simpl pcm_loop.
    unfold bind at 1, load_i16. rewrite H0.
    unfold bind at 1, store_f32. rewrite Hv.
    set (m1 := Mem (i16 m) (<[out + i := pcm_scale s0]> (f32 m))).
    destruct (IH (i + 1) m1 obuf) as (m' & Hrun & HO').
    + rewrite Z.add_assoc. now apply (array_i16_ext m).
    + rewrite Z.add_assoc. apply (array_f32_ext m); [|assumption].
      intros a Ha. simpl. apply lookup_insert_ne. lia.
    + lia.
    + exists m'. split; [assumption|]. simpl. split.
      * destruct (pcm_loop_frame _ _ _ _ _ _ _ Hrun) as (_ & _ & Hf).
        rewrite Hf by lia. simpl. apply lookup_insert_eq.
      * now rewrite Z.add_assoc in HO'.
Qed.

(** ** Facts checked on every value of [int16_t] *)

Lemma square_ok_all : forall_int16 square_ok = true.
Proof. vm_compute. reflexivity. Qed.

Lemma pcm_scale_ok_all : forall_int16 pcm_scale_ok = true.
Proof. vm_compute. reflexivity. Qed.

(** [(double)x * (double)x] is the exact square of the sample [x]: the
    multiplication does not round, so fusing it with the addition that
    follows would give the same sum. *)
Lemma double_square_exact (x : Z) :
  int16_range x ->
  d_mul (double_of_int x) (double_of_int x) = double_of_int (x * x).
Proof.
  intros Hx. pose proof (forall_int16_spec _ square_ok_all x Hx) as H.
  unfold square_ok in H. now apply bool_decide_eq_true in H.
Qed.

Lemma representsb_spec (v : spec_float) (q : Q) :
  representsb v q = true -> represents v q.
Proof.
  unfold representsb, represents. destruct (SFval v); [|discriminate].
  apply Qeq_bool_iff.
Qed.

Lemma pcm_scale_facts (x : Z) :
  int16_range x ->
  represents (pcm_scale x) (x # 32768) /\
  SFleb f_minus_one (pcm_scale x) = true /\
  SFltb (pcm_scale x) f_one = true /\
  (x < 32767 -> SFleb (pcm_scale x) (pcm_scale (x + 1)) = true).
Proof.
  intros Hx. pose proof (forall_int16_spec _ pcm_scale_ok_all x Hx) as H.
  unfold pcm_scale_ok in H.
  apply andb_prop in H as [H H4]. apply andb_prop in H as [H H3].
  apply andb_prop in H as [H1 H2].
  repeat split; auto using representsb_spec.
  intros Hlt. apply Z.ltb_lt in Hlt. now rewrite Hlt in H4.
Qed.

(** ** The order on floats *)

Lemma SFleb_finite_pos (m1 m2 : positive) (e1 e2 : Z) :
  SFleb (S754_finite false m1 e1) (S754_finite false m2 e2) = true <->
  e1 < e2 \/ (e1 = e2 /\ (m1 <= m2)%positive).
Proof.
  unfold SFleb, SFcompare.
  change (Pos.compare_cont Eq m1 m2) with (Pos.compare m1 m2).
  destruct (Z.compare_spec e1 e2), (Pos.compare_spec m1 m2);
    split; intros Hle; try discriminate; try reflexivity; lia.
Qed.

Lemma SFleb_finite_neg (m1 m2 : positive) (e1 e2 : Z) :
  SFleb (S754_finite true m1 e1) (S754_finite true m2 e2) = true <->
  e2 < e1 \/ (e1 = e2 /\ (m2 <= m1)%positive).
Proof.
  unfold SFleb, SFcompare.
  change (Pos.compare_cont Eq m1 m2) with (Pos.compare m1 m2).
  destruct (Z.compare_spec e1 e2), (Pos.compare_spec m1 m2);
    split; simpl; intros Hle; try discriminate; try reflexivity; lia.
Qed.

(** [SFleb] is transitive (NaN is below and above nothing). *)
Lemma SFleb_trans (x y z : spec_float) :
  SFleb x y = true -> SFleb y z = true -> SFleb x z = true.
Proof.
  destruct x as [[]|[]| |[] mx ex], y as [[]|[]| |[] my ey],
           z as [[]|[]| |[] mz ez];
    first [ rewrite !SFleb_finite_pos; lia
          | rewrite !SFleb_finite_neg; lia
          | cbn; intros; first [discriminate | reflexivity] ].
Qed.

(** [SFleb] is reflexive on everything but NaN. *)
Lemma SFleb_refl (x : spec_float) : is_nan x = false -> SFleb x x = true.
Proof.
  destruct x as [[]|[]| |[] m e]; try discriminate; try reflexivity; intros _.
  - apply SFleb_finite_neg. lia.
  - apply SFleb_finite_pos. lia.
Qed.

(** The conversion is monotone on the values of [int16_t]. *)
Lemma pcm_scale_mono (a b : Z) :
  int16_range a -> int16_range b -> a <= b ->
  SFleb (pcm_scale a) (pcm_scale b) = true.
Proof.
  intros Ha Hb Hab.
  replace b with (a + Z.of_nat (Z.to_nat (b - a))) in * by lia.
  clear Hab. induction (Z.to_nat (b - a)) as [|k IH].
  - rewrite Z.add_0_r.
    destruct (pcm_scale_facts a Ha) as (_ & H1 & _).
    apply SFleb_refl. now destruct (pcm_scale a).
  - unfold int16_range in *.
    apply SFleb_trans with (pcm_scale (a + Z.of_nat k)); [apply IH; lia|].
    replace (a + Z.of_nat (S k)) with (a + Z.of_nat k + 1) by lia.
    apply pcm_scale_facts; unfold int16_range; lia.
Qed.

(** ** The routines on buffers *)

(** The sum as the code accumulates it agrees with the sum of the exact
    integer squares. *)
Lemma fold_squares (buf : list Z) :
  Forall int16_range buf ->
  forall acc,
    fold_left rms_step buf acc =
    fold_left (fun acc s => d_add acc (double_of_int (s * s))) buf acc.
Proof.
  induction 1 as [|x buf Hx _ IH]; intros acc; [reflexivity|].
  simpl. unfold rms_step at 2.
  rewrite double_square_exact by assumption. apply IH.
Qed.

Lemma fold_squares_nonneg (buf : list Z) :
  forall acc,
    nonneg_float acc ->
    nonneg_float (fold_left rms_step buf acc).
Proof.
  induction buf as [|x buf IH]; intros acc Hacc; [assumption|].
  simpl. apply IH. unfold rms_step. apply d_add_nonneg; [assumption|].
  apply d_mul_self_nonneg.
  pose proof (double_of_int_sign x) as Hs.
  now destruct (double_of_int x).
Qed.

Lemma vox_rms_int16_run (m : mem) (samples n : Z) (buf : list Z) :
  1 <= n -> Z.of_nat (length buf) = n -> array_i16 m samples buf ->
  vox_rms_int16 samples n m =
    Some (d_sqrt (d_div
            (fold_left rms_step buf d_zero)
            (double_of_int n)), m).
Proof.
  intros Hn Hlen HA. unfold vox_rms_int16.
  destruct (Z.leb_spec n 0) as [|_]; [lia|].
  unfold bind. subst n. rewrite Nat2Z.id.
  rewrite rms_loop_run by now rewrite Z.add_0_r.
  reflexivity.
Qed.

Lemma vox_pcm_to_float32_run (m : mem) (samples out n : Z)
    (buf : list Z) (obuf : list spec_float) :
  Z.of_nat (length buf) = n ->
  array_i16 m samples buf -> array_f32 m out obuf ->
  (length buf <= length obuf)%nat ->
  exists m',
    vox_pcm_to_float32 samples out n m = Some (tt, m') /\
    array_f32 m' out (map pcm_scale buf ++ drop (length buf) obuf).
Proof.
  intros Hlen HA HO Hle. unfold vox_pcm_to_float32.
  destruct (Z.leb_spec n 0) as [Hn|Hn].
  - assert (buf = []) as -> by (destruct buf; [reflexivity|simpl in Hlen; lia]).
    exists m. split; [reflexivity|]. simpl. now rewrite drop_0.
  - subst n. rewrite Nat2Z.id.
    destruct (pcm_loop_run samples out buf 0 m obuf) as (m' & Hrun & HO');
      rewrite ?Z.add_0_r in *; try assumption.
    exists m'. auto.
Qed.

Lemma vox_pcm_to_float32_frame (m : mem) (samples out n : Z)
    (u : unit) (m' : mem) :
  vox_pcm_to_float32 samples out n m = Some (u, m') ->
  i16 m' = i16 m /\
  dom (f32 m') = dom (f32 m) /\
  forall a, ~ (out <= a < out + n) -> f32 m' !! a = f32 m !! a.
Proof.
  unfold vox_pcm_to_float32. destruct (Z.leb_spec n 0) as [Hn|Hn]; intros H.
  - unfold ret in H. injection H as _ <-. auto.
  - apply pcm_loop_frame in H as (Hi & Hd & Hf).
    repeat split; try assumption.
    intros a Ha. apply Hf. lia.
Qed.

(** After a successful conversion of a buffer holding [buf], cell [i] of the
    output holds the scaled sample [i]. *)
Lemma vox_pcm_to_float32_cell (m m' : mem) (out : Z) (buf : list Z)
    (obuf : list spec_float) (i : nat) (s : Z) :
  array_f32 m' out (map pcm_scale buf ++ obuf) -> buf !! i = Some s ->
  f32 m' !! (out + Z.of_nat i) = Some (pcm_scale s).
Proof.
  intros HO Hi. apply (array_f32_lookup m' _ out i _ HO).
  rewrite lookup_app_l by (rewrite length_map; now apply lookup_lt_Some in Hi).
  rewrite list_lookup_fmap, Hi. reflexivity.
Qed.

(** After a successful run of the conversion loop every cell of
    [out[i .. i + k)] holds the scaled sample of the same index. *)
Lemma pcm_loop_cells (samples out : Z) (k : nat) :
  forall i m u m',
    pcm_loop samples out k i m = Some (u, m') ->
    forall j, i <= j < i + Z.of_nat k ->
      exists x, i16 m !! (samples + j) = Some x /\
                f32 m' !! (out + j) = Some (pcm_scale x).
Proof.
  induction k as [|k IH]; intros i m u m' H j Hj; [lia|].
  simpl in H. unfold bind at 1, load_i16 in H.
  destruct (i16 m !! (samples + i)) as [x|] eqn:Hx; [|discriminate].
  unfold bind at 1, store_f32 in H.
  destruct (f32 m !! (out + i)) as [v|] eqn:Hv; [|discriminate].
  destruct (Z.eq_dec j i) as [->|Hne].
  - exists x. split; [assumption|].
    destruct (pcm_loop_frame _ _ _ _ _ _ _ H) as (_ & _ & Hf).
    rewrite Hf by lia. simpl. apply lookup_insert_eq.
  - apply (IH _ _ _ _ H). lia.
Qed.

(** Where every cell of [out[i .. i + k)] already holds the scaled sample
    of the same index, the conversion loop changes nothing. *)
Lemma pcm_loop_fixed (samples out : Z) (k : nat) :
  forall i m,
    (forall j, i <= j < i + Z.of_nat k ->
       exists x, i16 m !! (samples + j) = Some x /\
                 f32 m !! (out + j) = Some (pcm_scale x)) ->
    pcm_loop samples out k i m = Some (tt, m).
Proof.
  induction k as [|k IH]; intros i m H; [reflexivity|].
  destruct (H i ltac:(lia)) as (x & Hx & Hv).
  simpl. unfold bind at 1, load_i16. rewrite Hx.
  unfold bind at 1, store_f32. rewrite Hv.
  rewrite (insert_id _ _ _ Hv).
  replace (Mem (i16 m) (f32 m)) with m by (now destruct m).
  apply IH. intros j Hj. apply H. lia.
Qed.

(** A second conversion right after a successful one changes nothing. *)
Lemma vox_pcm_to_float32_again (m : mem) (samples out n : Z)
    (u : unit) (m' : mem) :
  vox_pcm_to_float32 samples out n m = Some (u, m') ->
  vox_pcm_to_float32 samples out n m' = Some (tt, m').
Proof.
  intros H. pose proof (vox_pcm_to_float32_frame _ _ _ _ _ _ H) as (Hi & _ & _).
  unfold vox_pcm_to_float32 in *.
  destruct (n <=? 0); [reflexivity|].
  apply pcm_loop_fixed. intros j Hj. rewrite Hi.
  apply (pcm_loop_cells _ _ _ _ _ _ _ H j Hj).
Qed.

(** The value [vox_rms_int16] returns on a buffer holding [buf]. *)
Lemma vox_rms_int16_value (m : mem) (samples n : Z) (buf : list Z) :
  Z.of_nat (length buf) = n -> array_i16 m samples buf ->
  vox_rms_int16 samples n m =
    Some (if n <=? 0 then d_zero else rms_spec buf, m).
Proof.
  intros Hlen HA. destruct (Z.leb_spec n 0) as [Hn|Hn].
  - unfold vox_rms_int16. destruct (Z.leb_spec n 0); [reflexivity|lia].
  - rewrite (vox_rms_int16_run m samples n buf) by (assumption || lia).
    unfold rms_spec, sum_sq.
    rewrite (fold_squares buf (array_i16_range m buf samples HA)), Hlen.
    reflexivity.
Qed.

Lemma fold_zeros (k : nat) :
  fold_left rms_step
    (replicate k 0) d_zero = d_zero.
Proof. induction k as [|k IH]; [reflexivity|]. simpl. exact IH. Qed.

Lemma represents_f_minus_one : represents f_minus_one (-1).
Proof. reflexivity. Qed.

Lemma represents_f_one : represents f_one 1.
Proof. reflexivity. Qed.

(** ** The example memories hold the example buffers *)

Lemma demo_mem_samples : array_i16 demo_mem 100 demo_samples.
Proof. unfold int16_range. simpl. repeat split; (reflexivity || lia). Defined.

Lemma demo_mem_out : array_f32 demo_mem 7 demo_out.
Proof. simpl. repeat split; reflexivity. Defined.

Lemma demo_mem'_samples : array_i16 demo_mem' 100 demo_samples.
Proof. unfold int16_range. simpl. repeat split; (reflexivity || lia). Defined.

Lemma demo_mem'_out : array_f32 demo_mem' 7 (take 4 demo_out).
Proof. simpl. repeat split; reflexivity. Defined.

Lemma demo_mem_out_4 : array_f32 demo_mem 7 (take 4 demo_out).
Proof. simpl. repeat split; reflexivity. Defined.

(** ** The routines at work *)

(** [sqrt((25 + 25 + 25 + 25) / 4)] is [5.0]. *)
Example rms_of_fives :
  vox_rms_int16 0 4 fives_mem = Some (double_of_int 5, fives_mem).
Proof. reflexivity. Qed.

(** [sqrt((9 + 16) / 2)] rounds to [7961314590657216 * 2^-51], that is
    3.5355339059327378. *)
Example rms_of_3_4 :
  fst <$> vox_rms_int16 100 2 demo_mem =
    Some (S754_finite false 7961314590657216 (-51)).
Proof. reflexivity. Qed.

(** Reading a fifth sample where four are allocated is undefined. *)
Example rms_past_the_buffer : vox_rms_int16 100 5 demo_mem = None.
Proof. reflexivity. Qed.

(** The four samples converted into the first four floats; the fifth float
    is left alone. *)
Example pcm_of_demo :
  (fun r => (fun a => f32 r.2 !! a) <$> [7; 8; 9; 10; 11])
    <$> vox_pcm_to_float32 100 7 4 demo_mem =
  Some [Some (S754_finite false 12582912 (-37));
        Some (S754_finite false 8388608 (-36));
        Some f_minus_one;
        Some (S754_finite false 16776704 (-24));
        Some S754_nan].
Proof. reflexivity. Qed.

(** Writing a float where none is allocated is undefined. *)
Example pcm_past_the_buffer : vox_pcm_to_float32 100 9 4 demo_mem = None.
Proof. reflexivity. Qed.

(** * The claims *)

(** C1: for every count [n >= 1] and every buffer [buf] of [n] signed 16-bit
    samples, [vox_rms_int16] returns [sqrt(sum(s_i^2) / n)], the sum of
    the squares accumulated in binary64 from [0.0] in buffer order and the
    square root taken once at the end; the memory is left as it was. *)
Theorem vox_rms_int16_formula (m : mem) (samples n : Z) (buf : list Z) :
  1 <= n -> Z.of_nat (length buf) = n -> array_i16 m samples buf ->
  vox_rms_int16 samples n m = Some (rms_spec buf, m).
Proof.
  intros Hn Hlen HA.
  rewrite (vox_rms_int16_value m samples n buf Hlen HA).
  destruct (Z.leb_spec n 0); [lia|reflexivity].
Qed.

Lemma vox_rms_int16_formula_witness :
  vox_rms_int16 100 4 demo_mem = Some (rms_spec demo_samples, demo_mem).
Proof.
  apply vox_rms_int16_formula; [lia | reflexivity | exact demo_mem_samples].
Defined.

(** C2: for every buffer [buf] of [n] signed 16-bit samples and every output
    buffer of at least [n] floats, [vox_pcm_to_float32] succeeds and
    afterwards [out[i]] holds [(float)buf[i] / 32768.0f] for every [i < n],
    a binary32 number whose value is exactly the quotient [buf[i] / 32768]. *)
Theorem vox_pcm_to_float32_spec (m : mem) (samples out n : Z)
    (buf : list Z) (obuf : list spec_float) :
  Z.of_nat (length buf) = n ->
  array_i16 m samples buf -> array_f32 m out obuf ->
  (length buf <= length obuf)%nat ->
  exists m',
    vox_pcm_to_float32 samples out n m = Some (tt, m') /\
    forall (i : nat) (s : Z), buf !! i = Some s ->
      f32 m' !! (out + Z.of_nat i) = Some (pcm_scale s) /\
      represents (pcm_scale s) (s # 32768).
Proof.
  intros Hlen HA HO Hle.
  destruct (vox_pcm_to_float32_run m samples out n buf obuf Hlen HA HO Hle)
    as (m' & Hrun & HO').
  exists m'. split; [assumption|]. intros i s Hi. split.
  - exact (vox_pcm_to_float32_cell m m' out buf _ i s HO' Hi).
  - apply pcm_scale_facts.
    exact (proj2 (array_i16_lookup m buf samples i s HA Hi)).
Qed.

Lemma vox_pcm_to_float32_spec_witness :
  exists m',
    vox_pcm_to_float32 100 7 4 demo_mem = Some (tt, m') /\
    forall (i : nat) (s : Z), demo_samples !! i = Some s ->
      f32 m' !! (7 + Z.of_nat i) = Some (pcm_scale s) /\
      represents (pcm_scale s) (s # 32768).
Proof.
  apply (vox_pcm_to_float32_spec demo_mem 100 7 4 demo_samples demo_out);
    [reflexivity | exact demo_mem_samples | exact demo_mem_out | simpl; lia].
Defined.

(** C3: for every count [n <= 0], whatever the pointer and the memory,
    [vox_rms_int16] returns exactly [0.0]; it does not fail and reads
    nothing. *)
Theorem vox_rms_int16_nonpositive (m : mem) (samples n : Z) :
  n <= 0 -> vox_rms_int16 samples n m = Some (d_zero, m).
Proof.
  intros Hn. unfold vox_rms_int16.
  destruct (Z.leb_spec n 0) as [_|]; [reflexivity|lia].
Qed.

Lemma vox_rms_int16_nonpositive_witness :
  vox_rms_int16 12345 (-3) demo_mem = Some (d_zero, demo_mem).
Proof. apply vox_rms_int16_nonpositive. lia. Defined.

(** C4: for every count [n <= 0], [vox_pcm_to_float32] does not fail and
    writes nothing: the memory after the call, the output buffer included,
    is the memory before it. *)
Theorem vox_pcm_to_float32_nonpositive (m : mem) (samples out n : Z) :
  n <= 0 -> vox_pcm_to_float32 samples out n m = Some (tt, m).
Proof.
  intros Hn. unfold vox_pcm_to_float32.
  destruct (Z.leb_spec n 0) as [_|]; [reflexivity|lia].
Qed.

Lemma vox_pcm_to_float32_nonpositive_witness :
  vox_pcm_to_float32 100 7 0 demo_mem = Some (tt, demo_mem).
Proof. apply vox_pcm_to_float32_nonpositive. lia. Defined.

(** C5: converting the single sample -32768 stores exactly [-1.0] in
    [out[0]]; converting the single sample 32767 stores the float whose
    value is exactly [32767 / 32768]; and every sample of [int16_t] is
    converted to a float in [[-1.0, 1.0)], never reaching [1.0]. *)
Theorem pcm_scale_endpoints_range :
  (forall (m : mem) (samples out : Z) (v0 : spec_float),
      array_i16 m samples [-32768] -> array_f32 m out [v0] ->
      exists m',
        vox_pcm_to_float32 samples out 1 m = Some (tt, m') /\
        f32 m' !! out = Some f_minus_one) /\
  (forall (m : mem) (samples out : Z) (v0 : spec_float),
      array_i16 m samples [32767] -> array_f32 m out [v0] ->
      exists m' v,
        vox_pcm_to_float32 samples out 1 m = Some (tt, m') /\
        f32 m' !! out = Some v /\ represents v (32767 # 32768)) /\
  (forall s : Z,
      int16_range s ->
      SFleb f_minus_one (pcm_scale s) = true /\
      SFltb (pcm_scale s) f_one = true) /\
  represents f_minus_one (-1) /\ represents f_one 1.
Proof.
  split; [|split; [|split]].
  - intros m samples out v0 HA HO.
    destruct (vox_pcm_to_float32_run m samples out 1 [-32768] [v0]
                eq_refl HA HO (le_n 1)) as (m' & Hrun & HO').
    exists m'. split; [assumption|apply HO'].
  - intros m samples out v0 HA HO.
    destruct (vox_pcm_to_float32_run m samples out 1 [32767] [v0]
                eq_refl HA HO (le_n 1)) as (m' & Hrun & HO').
    exists m', (pcm_scale 32767). split; [assumption|].
    split; [apply HO'|reflexivity].
  - intros s Hs. destruct (pcm_scale_facts s Hs) as (_ & H1 & H2 & _). auto.
  - split; [exact represents_f_minus_one|exact represents_f_one].
Qed.

Lemma pcm_scale_endpoints_range_witness :
  (exists m',
      vox_pcm_to_float32 102 9 1 demo_mem = Some (tt, m') /\
      f32 m' !! 9 = Some f_minus_one) /\
  SFleb f_minus_one (pcm_scale 32767) = true /\
  SFltb (pcm_scale 32767) f_one = true.
Proof.
  split.
  - apply (proj1 pcm_scale_endpoints_range demo_mem 102 9 f_one);
      unfold int16_range; simpl; repeat split; (reflexivity || lia).
  - apply (proj1 (proj2 (proj2 pcm_scale_endpoints_range)) 32767).
    unfold int16_range. lia.
Defined.

(** C6: for every length [n >= 0], [vox_rms_int16] on a buffer of [n]
    samples that are all zero returns exactly [0.0]. *)
Theorem vox_rms_int16_zeros (m : mem) (samples n : Z) :
  0 <= n -> int_range n ->
  array_i16 m samples (replicate (Z.to_nat n) 0) ->
  vox_rms_int16 samples n m = Some (d_zero, m).
Proof.
  intros Hn Hr HA. destruct (Z.eq_dec n 0) as [->|Hpos]; [reflexivity|].
  rewrite (vox_rms_int16_run m samples n (replicate (Z.to_nat n) 0));
    [|lia|rewrite length_replicate; lia|assumption].
  rewrite fold_zeros.
  destruct (double_of_int_finite n) as (mn & en & ->);
    [lia|unfold int_range in Hr; lia|].
  destruct (Z.ltb_spec n 0); [lia|reflexivity].
Qed.

Lemma vox_rms_int16_zeros_witness :
  vox_rms_int16 0 3 zero_mem = Some (d_zero, zero_mem).
Proof.
  apply vox_rms_int16_zeros; unfold int_range, int16_range; simpl;
    repeat split; (reflexivity || lia).
Defined.

(** C7: neither routine changes the samples (or any other [int16_t]
    object), neither allocates, [vox_rms_int16] leaves the whole memory
    as it was, and [vox_pcm_to_float32] changes no [float] outside
    [out[0 .. n)]: on a buffer of [n] samples and an output buffer at
    least as long both routines return, the samples are still in place
    and the output buffer keeps its old contents from index [n] on. *)
Theorem routines_frame (m : mem) (samples out n : Z) :
  (forall v m', vox_rms_int16 samples n m = Some (v, m') -> m' = m) /\
  (forall u m',
      vox_pcm_to_float32 samples out n m = Some (u, m') ->
      i16 m' = i16 m /\
      dom (f32 m') = dom (f32 m) /\
      forall a, ~ (out <= a < out + n) -> f32 m' !! a = f32 m !! a) /\
  (forall (buf : list Z) (obuf : list spec_float),
      Z.of_nat (length buf) = n ->
      array_i16 m samples buf -> array_f32 m out obuf ->
      (length buf <= length obuf)%nat ->
      exists v m',
        vox_rms_int16 samples n m = Some (v, m) /\
        vox_pcm_to_float32 samples out n m = Some (tt, m') /\
        array_i16 m' samples buf /\
        array_f32 m' out (map pcm_scale buf ++ drop (length buf) obuf)).
Proof.
  split; [|split].
  - intros v m'. unfold vox_rms_int16.
    destruct (n <=? 0); [unfold ret; congruence|].
    unfold bind.
    destruct (rms_loop samples (Z.to_nat n) 0 d_zero m) as [[sum m1]|] eqn:Hl;
      [|discriminate].
    apply rms_loop_mem in Hl. unfold ret. congruence.
  - intros u m'. apply vox_pcm_to_float32_frame.
  - intros buf obuf Hlen HA HO Hle.
    destruct (vox_pcm_to_float32_run m samples out n buf obuf Hlen HA HO Hle)
      as (m' & Hrun & HO').
    destruct (vox_pcm_to_float32_frame _ _ _ _ _ _ Hrun) as (Hi & _ & _).
    eexists _, m'. split; [now apply (vox_rms_int16_value m samples n buf)|].
    split; [assumption|]. split; [now apply (array_i16_ext m)|assumption].
Qed.

Lemma routines_frame_witness :
  exists v m',
    vox_rms_int16 100 4 demo_mem = Some (v, demo_mem) /\
    vox_pcm_to_float32 100 7 4 demo_mem = Some (tt, m') /\
    array_i16 m' 100 demo_samples /\
    array_f32 m' 7
      (map pcm_scale demo_samples ++ drop (length demo_samples) demo_out).
Proof.
  apply (proj2 (proj2 (routines_frame demo_mem 100 7 4)) demo_samples demo_out);
    [reflexivity | exact demo_mem_samples | exact demo_mem_out | simpl; lia].
Defined.

(** C8: both routines are deterministic and stateless.  In any two
    memories that hold the same samples [buf] and the same output buffer
    [obuf], and differ arbitrarily elsewhere, [vox_rms_int16] returns the
    same double and [vox_pcm_to_float32] leaves the same output buffer
    [obuf']; and calling either routine again after the conversion gives
    the same result once more. *)
Theorem routines_deterministic (m1 m2 : mem) (samples out n : Z)
    (buf : list Z) (obuf : list spec_float) :
  Z.of_nat (length buf) = n ->
  array_i16 m1 samples buf -> array_i16 m2 samples buf ->
  array_f32 m1 out obuf -> array_f32 m2 out obuf ->
  (length buf <= length obuf)%nat ->
  exists (v : spec_float) (m1' m2' : mem) (obuf' : list spec_float),
    vox_rms_int16 samples n m1 = Some (v, m1) /\
    vox_rms_int16 samples n m2 = Some (v, m2) /\
    vox_pcm_to_float32 samples out n m1 = Some (tt, m1') /\
    vox_pcm_to_float32 samples out n m2 = Some (tt, m2') /\
    array_f32 m1' out obuf' /\ array_f32 m2' out obuf' /\
    length obuf' = length obuf /\
    vox_pcm_to_float32 samples out n m1' = Some (tt, m1') /\
    vox_rms_int16 samples n m1' = Some (v, m1').
Proof.
  intros Hlen HA1 HA2 HO1 HO2 Hle.
  destruct (vox_pcm_to_float32_run m1 samples out n buf obuf Hlen HA1 HO1 Hle)
    as (m1' & Hrun1 & HO1').
  destruct (vox_pcm_to_float32_run m2 samples out n buf obuf Hlen HA2 HO2 Hle)
    as (m2' & Hrun2 & HO2').
  destruct (vox_pcm_to_float32_frame _ _ _ _ _ _ Hrun1) as (Hi & _ & _).
  exists (if n <=? 0 then d_zero else rms_spec buf), m1', m2',
         (map pcm_scale buf ++ drop (length buf) obuf).
  repeat split; try assumption.
  - now apply vox_rms_int16_value.
  - now apply vox_rms_int16_value.
  - rewrite length_app, length_map, length_drop. lia.
  - exact (vox_pcm_to_float32_again _ _ _ _ _ _ Hrun1).
  - apply vox_rms_int16_value; [assumption|].
    now apply (array_i16_ext m1).
Qed.

Lemma routines_deterministic_witness :
  exists (v : spec_float) (m1' m2' : mem) (obuf' : list spec_float),
    vox_rms_int16 100 4 demo_mem = Some (v, demo_mem) /\
    vox_rms_int16 100 4 demo_mem' = Some (v, demo_mem') /\
    vox_pcm_to_float32 100 7 4 demo_mem = Some (tt, m1') /\
    vox_pcm_to_float32 100 7 4 demo_mem' = Some (tt, m2') /\
    array_f32 m1' 7 obuf' /\ array_f32 m2' 7 obuf' /\
    length obuf' = length (take 4 demo_out) /\
    vox_pcm_to_float32 100 7 4 m1' = Some (tt, m1') /\
    vox_rms_int16 100 4 m1' = Some (v, m1').
Proof.
  apply (routines_deterministic demo_mem demo_mem' 100 7 4 demo_samples
           (take 4 demo_out));
    [ reflexivity | exact demo_mem_samples | exact demo_mem'_samples
    | exact demo_mem_out_4 | exact demo_mem'_out | simpl; lia ].
Defined.

(** C9: for every count [n] and every buffer of [n] signed 16-bit samples
    (any buffer when [n <= 0]), [vox_rms_int16] returns a double that is
    not NaN and not negative: it compares [>= 0.0]. *)
Theorem vox_rms_int16_nonneg (m : mem) (samples n : Z) (buf : list Z) :
  int_range n ->
  (0 < n -> Z.of_nat (length buf) = n) ->
  array_i16 m samples buf ->
  exists v,
    vox_rms_int16 samples n m = Some (v, m) /\
    nonneg_float v /\ SFleb d_zero v = true /\ is_nan v = false.
Proof.
  intros Hr Hlen HA. destruct (Z_le_gt_dec n 0) as [Hn|Hn].
  - exists d_zero. unfold vox_rms_int16.
    destruct (Z.leb_spec n 0); [|lia]. repeat split; reflexivity.
  - eexists. split.
    + apply (vox_rms_int16_run m samples n buf);
        [lia|apply Hlen; lia|assumption].
    + assert (Hv : nonneg_float
                (d_sqrt (d_div (fold_left rms_step buf d_zero)
                               (double_of_int n)))).
      { destruct (double_of_int_finite n) as (mn & en & ->);
          [lia|unfold int_range in Hr; lia|].
        destruct (Z.ltb_spec n 0); [lia|].
        apply d_sqrt_nonneg, d_div_nonneg, fold_squares_nonneg. reflexivity. }
      split; [exact Hv|]. now apply nonneg_float_leb.
Qed.

Lemma vox_rms_int16_nonneg_witness :
  exists v,
    vox_rms_int16 100 4 demo_mem = Some (v, demo_mem) /\
    nonneg_float v /\ SFleb d_zero v = true /\ is_nan v = false.
Proof.
  apply (vox_rms_int16_nonneg demo_mem 100 4 demo_samples);
    [unfold int_range; lia | reflexivity | exact demo_mem_samples].
Defined.

(** C10: the conversion is monotone.  For samples [a <= b] of [int16_t]
    the float written for [a] is [<=] the float written for [b]; so after
    converting a buffer, [buf[i] <= buf[j]] gives [out[i] <= out[j]]. *)
Theorem vox_pcm_to_float32_monotone :
  (forall a b : Z,
      int16_range a -> int16_range b -> a <= b ->
      SFleb (pcm_scale a) (pcm_scale b) = true) /\
  (forall (m : mem) (samples out n : Z)
          (buf : list Z) (obuf : list spec_float),
      Z.of_nat (length buf) = n ->
      array_i16 m samples buf -> array_f32 m out obuf ->
      (length buf <= length obuf)%nat ->
      exists m',
        vox_pcm_to_float32 samples out n m = Some (tt, m') /\
        forall (i j : nat) (a b : Z),
          buf !! i = Some a -> buf !! j = Some b -> a <= b ->
          exists va vb,
            f32 m' !! (out + Z.of_nat i) = Some va /\
            f32 m' !! (out + Z.of_nat j) = Some vb /\
            SFleb va vb = true).
Proof.
  split; [exact pcm_scale_mono|].
  intros m samples out n buf obuf Hlen HA HO Hle.
  destruct (vox_pcm_to_float32_run m samples out n buf obuf Hlen HA HO Hle)
    as (m' & Hrun & HO').
  exists m'. split; [assumption|]. intros i j a b Hi Hj Hab.
  exists (pcm_scale a), (pcm_scale b).
  split; [exact (vox_pcm_to_float32_cell m m' out buf _ i a HO' Hi)|].
  split; [exact (vox_pcm_to_float32_cell m m' out buf _ j b HO' Hj)|].
  apply pcm_scale_mono; try assumption.
  - exact (proj2 (array_i16_lookup m buf samples i a HA Hi)).
  - exact (proj2 (array_i16_lookup m buf samples j b HA Hj)).
Qed.

Lemma vox_pcm_to_float32_monotone_witness :
  SFleb (pcm_scale (-32768)) (pcm_scale 32767) = true.
Proof.
  apply (proj1 vox_pcm_to_float32_monotone); unfold int16_range; lia.
Defined.

(** * Further properties of the two routines *)


Lemma pshift_add (c : positive) (j k : Z) :
  0 <= j -> 0 <= k -> pshift (pshift c j) k = pshift c (j + k).
Proof.
  intros Hj Hk. destruct j as [|j|j], k as [|k|k]; try lia; try reflexivity.
  simpl. now rewrite Pos.add_comm, Pos.iter_add.
Qed.

Lemma digits2_pos_pshift (c : positive) (k : Z) :
  0 <= k -> Zpos (digits2_pos (pshift c k)) = Zpos (digits2_pos c) + k.
Proof.
  intros Hk. destruct k as [|k|k]; try lia; simpl.
  - lia.
  - rewrite digits2_pos_iter_xO. lia.
Qed.

Lemma pshift_plus (a b : positive) (k : Z) :
  (pshift a k + pshift b k)%positive = pshift (a + b) k.
Proof.
  destruct k as [|k|k]; try reflexivity. simpl.
  induction k as [|k IH] using Pos.peano_ind.
  - reflexivity.
  - rewrite !Pos.iter_succ, <- IH. reflexivity.
Qed.

Lemma iter_pos_iter {A : Type} (f : A -> A) (p : positive) :
  forall x, SpecFloat.iter_pos f p x = Pos.iter f x p.
Proof.
  induction p as [p IH|p IH|]; intros x; simpl; try reflexivity.
  - now rewrite !IH, <- !Pos.iter_swap.
  - now rewrite !IH.
Qed.

(** Shifting right the places just shifted in gives the mantissa back,
    with nothing lost. *)
Lemma shr_pshift (c r : positive) :
  SpecFloat.iter_pos shr_1 r
    (Build_shr_record (Zpos (Pos.iter xO c r)) false false) =
  Build_shr_record (Zpos c) false false.
Proof.
  rewrite iter_pos_iter.
  induction r as [|r IH] using Pos.peano_ind; [reflexivity|].
  rewrite Pos.iter_succ_r, Pos.iter_succ. exact IH.
Qed.

Lemma shl_align_pshift (m : positive) (e e' : Z) :
  e' <= e -> shl_align m e e' = (pshift m (e - e'), e').
Proof.
  intros H. unfold shl_align, pshift.
  destruct (e' - e) as [|d|d] eqn:Hd; try lia.
  - replace (e - e') with 0 by lia. f_equal. lia.
  - replace (e - e') with (Zpos d) by lia. reflexivity.
Qed.

Section Exact.
Variables prec emax : Z.

(** A mantissa that fits the format rounds to itself, aligned. *)
Lemma binary_round_exact (s : bool) (c : positive) (e : Z) :
  fexp prec emax (Zpos (digits2_pos c) + e) <= e ->
  e <= emax - prec ->
  binary_round prec emax s c e =
    S754_finite s
      (pshift c (e - fexp prec emax (Zpos (digits2_pos c) + e)))
      (fexp prec emax (Zpos (digits2_pos c) + e)).
Proof.
  intros Hd He. unfold binary_round.
  rewrite shl_align_pshift by assumption.
  apply binary_round_aux_canonical; [|lia].
  rewrite digits2_pos_pshift by lia. f_equal. lia.
Qed.

(** Rounding does not see trailing zeros moved from the exponent into the
    mantissa. *)
Lemma binary_round_pshift (s : bool) (c : positive) (e k : Z) :
  0 <= k ->
  fexp prec emax (Zpos (digits2_pos c) + e) <= e ->
  e <= emax - prec ->
  binary_round prec emax s (pshift c k) (e - k) = binary_round prec emax s c e.
Proof.
  intros Hk Hd He. rewrite (binary_round_exact s c e Hd He).
  set (e' := fexp prec emax (Zpos (digits2_pos c) + e)) in *.
  assert (Hdig : Zpos (digits2_pos (pshift c k)) + (e - k) = Zpos (digits2_pos c) + e)
    by (rewrite digits2_pos_pshift by lia; lia).
  destruct (Z_le_gt_dec e' (e - k)) as [Hle|Hgt].
  - rewrite binary_round_exact; rewrite ?Hdig; fold e'; try lia.
    rewrite pshift_add by lia. do 2 f_equal. lia.
  - unfold binary_round. rewrite Hdig. fold e'.
    unfold shl_align. destruct (e' - (e - k)) as [|r|r] eqn:Hr; try lia.
    unfold binary_round_aux, shr_fexp. simpl Zdigits2. rewrite Hdig. fold e'.
    rewrite Hr. simpl shr_record_of_loc. unfold shr.
    replace (pshift c k) with (Pos.iter xO (pshift c (e - e')) r).
    2:{ change (Pos.iter xO (pshift c (e - e')) r) with (pshift (pshift c (e - e')) (Zpos r)).
        rewrite pshift_add by lia. f_equal. lia. }
    rewrite shr_pshift. simpl.
    rewrite digits2_pos_pshift by lia.
    replace (Zpos (digits2_pos c) + (e - e') + (e - k + Zpos r)) with (Zpos (digits2_pos c) + e) by lia.
    fold e'. replace (e' - (e - k + Zpos r)) with 0 by lia. simpl.
    replace (e - k + Zpos r) with e' by lia.
    assert (Hb : (e' <=? emax - prec) = true) by (apply Z.leb_le; lia).
    now rewrite Hb.
Qed.
End Exact.

Lemma fexp_double (d : Z) : 1 <= d <= 53 -> fexp d_prec d_emax (d + 0) = d - 53.
Proof. intros H. unfold fexp, emin, d_prec, d_emax. lia. Qed.

(** The shape of [(double)x] for a positive integer below [2^53]. *)
Lemma double_of_int_pos (p : positive) :
  Zpos p < 2 ^ 53 ->
  double_of_int (Zpos p) =
    S754_finite false (pshift p (53 - Zpos (digits2_pos p)))
                (Zpos (digits2_pos p) - 53).
Proof.
  intros Hp.
  pose proof (digits2_pos_bound p 53 ltac:(lia) Hp) as Hd.
  unfold double_of_int, binary_normalize.
  rewrite binary_round_exact;
    rewrite ?fexp_double by lia; unfold d_prec, d_emax; try lia.
  do 2 f_equal. lia.
Qed.

(** Adding two non-negative integers in [double] is exact as long as the
    sum stays below [2^53]. *)
Lemma d_add_exact (a b : Z) :
  0 <= a -> 0 <= b -> a + b < 2 ^ 53 ->
  d_add (double_of_int a) (double_of_int b) = double_of_int (a + b).
Proof.
  intros Ha Hb Hab.
  destruct a as [|pa|pa]; [|clear Ha|lia].
  { change (double_of_int 0) with d_zero. rewrite Z.add_0_l.
    destruct (double_of_int b) as [[]|[]| |] eqn:E; try reflexivity.
    pose proof (double_of_int_sign b) as Hs. rewrite E in Hs. simpl in Hs.
    destruct (Z.ltb_spec b 0); [lia|discriminate]. }
  destruct b as [|pb|pb]; [|clear Hb|lia].
  { rewrite Z.add_0_r, (double_of_int_pos pa) by lia. reflexivity. }
  rewrite (double_of_int_pos pa), (double_of_int_pos pb) by lia.
  pose proof (digits2_pos_bound pa 53 ltac:(lia) ltac:(lia)) as Hda.
  pose proof (digits2_pos_bound pb 53 ltac:(lia) ltac:(lia)) as Hdb.
  pose proof (digits2_pos_bound (pa + pb) 53 ltac:(lia) Hab) as Hdc.
  unfold d_add, SFadd.
  set (ea := Zpos (digits2_pos pa) - 53).
  set (eb := Zpos (digits2_pos pb) - 53).
  set (ez := Z.min ea eb).
  rewrite !shl_align_pshift by lia. simpl fst.
  rewrite !pshift_add by lia.
  replace (53 - Zpos (digits2_pos pa) + (ea - ez)) with (- ez) by lia.
  replace (53 - Zpos (digits2_pos pb) + (eb - ez)) with (- ez) by lia.
  unfold cond_Zopp. rewrite <- Pos2Z.inj_add, pshift_plus.
  unfold binary_normalize.
  replace ez with (0 - - ez) at 2 by lia.
  rewrite binary_round_pshift;
    rewrite ?fexp_double by lia; unfold d_prec, d_emax; try lia.
  reflexivity.
Qed.

Lemma int_sum_sq_nonneg (buf : list Z) : 0 <= int_sum_sq buf.
Proof. induction buf as [|s buf IH]; simpl; nia. Qed.

Lemma int_sum_sq_bound (buf : list Z) :
  Forall int16_range buf ->
  int_sum_sq buf <= Z.of_nat (length buf) * 1073741824.
Proof.
  induction 1 as [|s buf Hs _ IH]; simpl length; simpl int_sum_sq; [lia|].
  unfold int16_range in Hs. nia.
Qed.

Lemma int_sum_sq_perm (buf1 buf2 : list Z) :
  Permutation buf1 buf2 -> int_sum_sq buf1 = int_sum_sq buf2.
Proof. induction 1; simpl; lia. Qed.

(** While it stays below [2^53] the running sum is the exact integer
    sum. *)
Lemma sum_sq_exact_from (buf : list Z) :
  forall acc,
    0 <= acc -> acc + int_sum_sq buf < 2 ^ 53 ->
    fold_left (fun acc s => d_add acc (double_of_int (s * s))) buf
      (double_of_int acc) =
    double_of_int (acc + int_sum_sq buf).
Proof.
  induction buf as [|s buf IH]; intros acc Hacc Hb; simpl in *.
  - now rewrite Z.add_0_r.
  - pose proof (int_sum_sq_nonneg buf).
    rewrite d_add_exact by nia. rewrite IH by nia. f_equal. lia.
Qed.

Lemma sum_sq_exact (buf : list Z) :
  int_sum_sq buf < 2 ^ 53 -> sum_sq buf = double_of_int (int_sum_sq buf).
Proof.
  intros Hb. unfold sum_sq. change d_zero with (double_of_int 0).
  now rewrite sum_sq_exact_from.
Qed.

(** X1: while the exact sum of the squares stays below [2^53], as it does
    for every buffer of fewer than [2^23] samples, the accumulation does
    not round: [vox_rms_int16] returns [sqrt((double)sum / (double)n)]
    with [sum] the exact integer sum of the squares. *)
Theorem vox_rms_int16_exact_sum (m : mem) (samples n : Z) (buf : list Z) :
  1 <= n -> Z.of_nat (length buf) = n -> array_i16 m samples buf ->
  n <= 8388607 \/ int_sum_sq buf < 2 ^ 53 ->
  vox_rms_int16 samples n m =
    Some (d_sqrt (d_div (double_of_int (int_sum_sq buf)) (double_of_int n)), m).
Proof.
  intros Hn Hlen HA Hb.
  assert (Hsum : int_sum_sq buf < 2 ^ 53).
  { destruct Hb as [Hb|Hb]; [|assumption].
    pose proof (int_sum_sq_bound buf (array_i16_range m buf samples HA)). lia. }
  rewrite (vox_rms_int16_value m samples n buf Hlen HA).
  destruct (Z.leb_spec n 0); [lia|].
  unfold rms_spec. now rewrite sum_sq_exact, Hlen.
Qed.

(** X2: for buffers of at most 8388607 samples the result does not
    depend on the order of the samples: two buffers that are permutations
    of each other give the same double. *)
Theorem vox_rms_int16_permutation (m1 m2 : mem) (samples1 samples2 n : Z)
    (buf1 buf2 : list Z) :
  n <= 8388607 -> Z.of_nat (length buf1) = n ->
  array_i16 m1 samples1 buf1 -> array_i16 m2 samples2 buf2 ->
  Permutation buf1 buf2 ->
  fst <$> vox_rms_int16 samples1 n m1 = fst <$> vox_rms_int16 samples2 n m2.
Proof.
  intros Hn Hlen HA1 HA2 HP.
  assert (Hlen2 : Z.of_nat (length buf2) = n)
    by (rewrite <- Hlen; f_equal; symmetry; now apply Permutation_length).
  rewrite (vox_rms_int16_value m1 samples1 n buf1 Hlen HA1).
  rewrite (vox_rms_int16_value m2 samples2 n buf2 Hlen2 HA2).
  simpl. f_equal. destruct (n <=? 0); [reflexivity|].
  pose proof (int_sum_sq_bound buf1 (array_i16_range m1 buf1 samples1 HA1)) as B1.
  pose proof (int_sum_sq_bound buf2 (array_i16_range m2 buf2 samples2 HA2)) as B2.
  unfold rms_spec. rewrite !sum_sq_exact by lia.
  now rewrite (int_sum_sq_perm buf1 buf2 HP), Hlen, Hlen2.
Qed.

Lemma sum_sq_abs (buf : list Z) :
  forall acc,
    fold_left (fun acc s => d_add acc (double_of_int (s * s))) (map Z.abs buf) acc =
    fold_left (fun acc s => d_add acc (double_of_int (s * s))) buf acc.
Proof.
  induction buf as [|s buf IH]; intros acc; [reflexivity|].
  simpl. rewrite Z.abs_square. apply IH.
Qed.

(** X3: the result depends on the magnitudes of the samples only: two
    buffers that agree up to the signs of their samples give the same
    double, whatever their length. *)
Theorem vox_rms_int16_polarity (m1 m2 : mem) (samples1 samples2 n : Z)
    (buf1 buf2 : list Z) :
  Z.of_nat (length buf1) = n ->
  array_i16 m1 samples1 buf1 -> array_i16 m2 samples2 buf2 ->
  map Z.abs buf1 = map Z.abs buf2 ->
  fst <$> vox_rms_int16 samples1 n m1 = fst <$> vox_rms_int16 samples2 n m2.
Proof.
  intros Hlen HA1 HA2 Habs.
  assert (Hlen2 : Z.of_nat (length buf2) = n).
  { rewrite <- Hlen, <- (length_map Z.abs buf2), <- Habs, length_map.
    reflexivity. }
  rewrite (vox_rms_int16_value m1 samples1 n buf1 Hlen HA1).
  rewrite (vox_rms_int16_value m2 samples2 n buf2 Hlen2 HA2).
  simpl. f_equal. destruct (n <=? 0); [reflexivity|].
  unfold rms_spec, sum_sq.
  rewrite <- (sum_sq_abs buf1), <- (sum_sq_abs buf2), Habs, Hlen, Hlen2.
  reflexivity.
Qed.

Lemma single_ok_all : forall_from 0 (Z.to_nat 32769) single_ok = true.
Proof. vm_compute. reflexivity. Qed.

Lemma single_sample_level (s : Z) :
  int16_range s -> rms_spec [s] = double_of_int (Z.abs s).
Proof.
  intros Hs. unfold rms_spec, sum_sq. simpl fold_left. simpl length.
  rewrite <- (Z.abs_square s).
  assert (Hk : Z.of_nat (Z.to_nat 32769) = 32769) by (apply Z2Nat.id; lia).
  pose proof single_ok_all as H. revert H Hk.
  generalize (Z.to_nat 32769). intros k H Hk.
  pose proof (forall_from_spec single_ok k 0 H (Z.abs s)) as Hok.
  unfold int16_range in Hs. unfold single_ok in Hok.
  apply bool_decide_eq_true in Hok; [exact Hok|lia].
Qed.

(** X4: the level of a single sample [s] is exactly [|s|]; for the
    sample -32768 that is 32768.0. *)
Theorem vox_rms_int16_single (m : mem) (samples s : Z) :
  array_i16 m samples [s] ->
  vox_rms_int16 samples 1 m = Some (double_of_int (Z.abs s), m).
Proof.
  intros HA.
  rewrite (vox_rms_int16_value m samples 1 [s] eq_refl HA). simpl.
  rewrite single_sample_level; [reflexivity|]. apply HA.
Qed.

(** ** Which cells the routines touch *)

Lemma rms_loop_defined (samples : Z) (k : nat) :
  forall i sum m,
    is_Some (rms_loop samples k i sum m) <->
    forall j, i <= j < i + Z.of_nat k -> is_Some (i16 m !! (samples + j)).
Proof.
  induction k as [|k IH]; intros i sum m.
  - simpl. split; [intros _ j Hj; lia|intros _; unfold ret; eauto].
  - simpl rms_loop. unfold bind at 1, load_i16. split.
    + intros H j Hj.
      destruct (i16 m !! (samples + i)) as [x|] eqn:Hx;
        [|destruct H; discriminate].
      destruct (Z.eq_dec j i) as [->|Hne]; [rewrite Hx; eauto|].
      apply (proj1 (IH _ _ _) H). lia.
    + intros H. destruct (H i ltac:(lia)) as [x Hx]. rewrite Hx.
      apply (proj2 (IH _ _ _)). intros j Hj. apply H. lia.
Qed.

(** X5: [vox_rms_int16] is defined exactly when [samples[j]] is
    allocated for every [0 <= j < n]; for [n <= 0] that is always. *)
Theorem vox_rms_int16_defined (m : mem) (samples n : Z) :
  is_Some (vox_rms_int16 samples n m) <->
  forall j, 0 <= j < n -> is_Some (i16 m !! (samples + j)).
Proof.
  unfold vox_rms_int16. destruct (Z.leb_spec n 0) as [Hn|Hn].
  - split; [intros _ j Hj; lia|intros _; unfold ret; eauto].
  - unfold bind.
    pose proof (rms_loop_defined samples (Z.to_nat n) 0 d_zero m) as H.
    rewrite Z2Nat.id in H by lia. rewrite <- H.
    destruct (rms_loop samples (Z.to_nat n) 0 d_zero m) as [[sum m']|].
    + unfold ret. split; eauto.
    + split; intros [x Hx]; discriminate.
Qed.

Lemma pcm_loop_defined (samples out : Z) (k : nat) :
  forall i m,
    is_Some (pcm_loop samples out k i m) <->
    forall j, i <= j < i + Z.of_nat k ->
      is_Some (i16 m !! (samples + j)) /\ is_Some (f32 m !! (out + j)).
Proof.
  induction k as [|k IH]; intros i m.
  - simpl. split; [intros _ j Hj; lia|intros _; unfold ret; eauto].
  - simpl pcm_loop. unfold bind at 1, load_i16. split.
    + intros H j Hj.
      destruct (i16 m !! (samples + i)) as [x|] eqn:Hx;
        [|destruct H; discriminate].
      unfold bind at 1, store_f32 in H.
      destruct (f32 m !! (out + i)) as [v|] eqn:Hv;
        [|destruct H; discriminate].
      destruct (Z.eq_dec j i) as [->|Hne]; [rewrite Hx, Hv; eauto|].
      destruct (proj1 (IH _ _) H j ltac:(lia)) as [H1 H2]. simpl in *.
      split; [assumption|]. rewrite lookup_insert_ne in H2 by lia. assumption.
    + intros H. destruct (H i ltac:(lia)) as [[x Hx] [v Hv]]. rewrite Hx.
      unfold bind at 1, store_f32. rewrite Hv.
      apply (proj2 (IH _ _)). intros j Hj.
      destruct (H j ltac:(lia)) as [H1 H2]. simpl.
      split; [assumption|].
      destruct (Z.eq_dec (out + i) (out + j)) as [->|Hne];
        [rewrite lookup_insert_eq; eauto|now rewrite lookup_insert_ne].
Qed.

(** X6: [vox_pcm_to_float32] is defined exactly when [samples[j]] and
    [out[j]] are allocated for every [0 <= j < n]: an output buffer that
    is too short makes the call undefined, whatever the samples. *)
Theorem vox_pcm_to_float32_defined (m : mem) (samples out n : Z) :
  is_Some (vox_pcm_to_float32 samples out n m) <->
  forall j, 0 <= j < n ->
    is_Some (i16 m !! (samples + j)) /\ is_Some (f32 m !! (out + j)).
Proof.
  unfold vox_pcm_to_float32. destruct (Z.leb_spec n 0) as [Hn|Hn].
  - split; [intros _ j Hj; lia|intros _; unfold ret; eauto].
  - pose proof (pcm_loop_defined samples out (Z.to_nat n) 0 m) as H.
    rewrite Z2Nat.id in H by lia. exact H.
Qed.

(** ** Converting in chunks *)

Lemma pcm_loop_app (samples out : Z) (k1 k2 : nat) :
  forall i m,
    pcm_loop samples out (k1 + k2) i m =
    bind (pcm_loop samples out k1 i)
         (fun _ => pcm_loop samples out k2 (i + Z.of_nat k1)) m.
Proof.
  induction k1 as [|k1 IH]; intros i m.
  - simpl. unfold bind, ret. now rewrite Z.add_0_r.
  - simpl. unfold bind, load_i16, store_f32.
    destruct (i16 m !! (samples + i)) as [x|]; [|reflexivity].
    destruct (f32 m !! (out + i)) as [v|]; [|reflexivity].
    rewrite IH. unfold bind.
    replace (i + 1 + Z.of_nat k1) with (i + Z.of_nat (S k1)) by lia.
    reflexivity.
Qed.

Lemma pcm_loop_shift (samples out d : Z) (k : nat) :
  forall i m,
    pcm_loop (samples + d) (out + d) k i m = pcm_loop samples out k (d + i) m.
Proof.
  induction k as [|k IH]; intros i m; [reflexivity|].
  simpl. unfold bind, load_i16, store_f32.
  rewrite <- !Z.add_assoc.
  destruct (i16 m !! (samples + (d + i))) as [x|]; [|reflexivity].
  destruct (f32 m !! (out + (d + i))) as [v|]; [|reflexivity].
  rewrite IH. now rewrite Z.add_assoc.
Qed.

(** X7: converting the first [k] samples and then the remaining
    [n - k] from [samples + k] into [out + k] is the same as converting
    all [n] at once: the same memory, or undefined in both cases. *)
Theorem vox_pcm_to_float32_chunks (m : mem) (samples out n k : Z) :
  0 <= k <= n ->
  bind (vox_pcm_to_float32 samples out k)
       (fun _ => vox_pcm_to_float32 (samples + k) (out + k) (n - k)) m =
  vox_pcm_to_float32 samples out n m.
Proof.
  intros Hk. unfold vox_pcm_to_float32.
  destruct (Z.leb_spec k 0) as [Hk0|Hk0].
  - assert (k = 0) as -> by lia. unfold bind, ret.
    rewrite !Z.add_0_r, Z.sub_0_r. reflexivity.
  - destruct (Z.leb_spec n 0) as [|Hn]; [lia|].
    destruct (Z.leb_spec (n - k) 0) as [Hnk|Hnk].
    + assert (k = n) as -> by lia. unfold bind, ret.
      destruct (pcm_loop samples out (Z.to_nat n) 0 m) as [[[] m']|];
        reflexivity.
    + replace (Z.to_nat n) with (Z.to_nat k + Z.to_nat (n - k))%nat
        by (rewrite <- Z2Nat.inj_add by lia; f_equal; lia).
      rewrite pcm_loop_app. unfold bind.
      destruct (pcm_loop samples out (Z.to_nat k) 0 m) as [[[] m']|];
        [|reflexivity].
      rewrite pcm_loop_shift, Z2Nat.id, Z.add_0_r, Z.add_0_l by lia.
      reflexivity.
Qed.


(** ** Orders of magnitude *)

Lemma digits2_pos_upper (p : positive) : Zpos p < 2 ^ Zpos (digits2_pos p).
Proof.
  induction p as [p IH|p IH|]; simpl digits2_pos;
    rewrite ?Pos2Z.inj_succ, ?Z.pow_succ_r by lia; lia.
Qed.

Lemma digits2_pos_log2 (p : positive) :
  Zpos (digits2_pos p) = Z.log2 (Zpos p) + 1.
Proof.
  pose proof (digits2_pos_lower p) as Hl.
  pose proof (digits2_pos_upper p) as Hu.
  assert (Z.log2 (Zpos p) = Zpos (digits2_pos p) - 1); [|lia].
  apply Z.log2_unique; [lia|].
  split; [assumption|]. now replace (Z.succ (Zpos (digits2_pos p) - 1)) with (Zpos (digits2_pos p)) by lia.
Qed.

Lemma shr_1_m (mrs : shr_record) :
  0 <= shr_m mrs -> shr_m (shr_1 mrs) = shr_m mrs / 2.
Proof.
  destruct mrs as [[|[q|q|]|q] r s]; simpl; intros H; try lia; try reflexivity.
  - rewrite Pos2Z.inj_xI. symmetry. rewrite Z.add_comm, Z.mul_comm.
    rewrite Z.div_add by lia. reflexivity.
  - rewrite Pos2Z.inj_xO, Z.mul_comm. symmetry. apply Z.div_mul. lia.
Qed.

Lemma iter_shr_1_m (r : positive) :
  forall mrs,
    0 <= shr_m mrs ->
    shr_m (SpecFloat.iter_pos shr_1 r mrs) = shr_m mrs / 2 ^ Zpos r.
Proof.
  intros mrs. rewrite iter_pos_iter.
  induction r as [|r IH] using Pos.peano_ind; intros H.
  - simpl Pos.iter. rewrite shr_1_m by assumption. reflexivity.
  - rewrite Pos.iter_succ, shr_1_m.
    + rewrite IH by assumption. rewrite Pos2Z.inj_succ, Z.pow_succ_r by lia.
      rewrite Z.div_div by lia. f_equal. lia.
    + rewrite IH by assumption. apply Z.div_pos; lia.
Qed.

Lemma log2_div_pow2 (m r : Z) :
  0 < m -> 0 <= r <= Z.log2 m ->
  0 < m / 2 ^ r /\ Z.log2 (m / 2 ^ r) = Z.log2 m - r.
Proof.
  intros Hm Hr.
  rewrite <- Z.shiftr_div_pow2 by lia.
  rewrite Z.log2_shiftr by lia.
  split; [|lia].
  rewrite Z.shiftr_div_pow2 by lia.
  apply Z.div_str_pos. split; [lia|].
  pose proof (Z.log2_spec m Hm) as [Hl _].
  assert (2 ^ r <= 2 ^ Z.log2 m) by (apply Z.pow_le_mono_r; lia). lia.
Qed.

Section Magnitude.
Variables prec emax : Z.
Hypothesis Hprec : 0 < prec.

(** Shifting a positive mantissa to the format keeps it positive and
    keeps its order of magnitude, above the underflow threshold. *)
Lemma shr_fexp_mag (m e : Z) (l : location) :
  0 < m -> emin prec emax < Z.log2 m + 1 + e ->
  0 < shr_m (fst (shr_fexp prec emax m e l)) /\
  Z.log2 (shr_m (fst (shr_fexp prec emax m e l))) + snd (shr_fexp prec emax m e l)
    = Z.log2 m + e.
Proof.
  intros Hm Hmag. unfold shr_fexp.
  assert (Hd : Zdigits2 m = Z.log2 m + 1).
  { destruct m as [|p|p]; try lia. apply digits2_pos_log2. }
  rewrite Hd. unfold shr.
  destruct (fexp prec emax (Z.log2 m + 1 + e) - e) as [|r|r] eqn:Hr; simpl;
    rewrite ?shr_record_of_loc_m; try (split; [assumption|reflexivity]).
  rewrite iter_shr_1_m by (rewrite shr_record_of_loc_m; lia).
  rewrite shr_record_of_loc_m.
  assert (Zpos r <= Z.log2 m) by (unfold fexp in Hr; lia).
  destruct (log2_div_pow2 m (Zpos r) Hm ltac:(lia)) as [H1 H2].
  split; [assumption|]. rewrite H2. lia.
Qed.

Lemma round_nearest_even_mag (m : Z) (l : location) :
  0 < m ->
  0 < round_nearest_even m l /\ Z.log2 m <= Z.log2 (round_nearest_even m l).
Proof.
  intros Hm.
  assert (m <= round_nearest_even m l).
  { destruct l as [|[]]; simpl; try lia. destruct (Z.even m); lia. }
  split; [lia|]. apply Z.log2_le_mono. assumption.
Qed.

(** Rounding a positive mantissa above the underflow threshold gives a
    positive number, finite or infinite, of at least the same order of
    magnitude. *)
Lemma binary_round_aux_mag (s : bool) (m e : Z) (l : location) :
  0 < m -> emin prec emax < Z.log2 m + 1 + e ->
  binary_round_aux prec emax s m e l = S754_infinity s \/
  exists m' e',
    binary_round_aux prec emax s m e l = S754_finite s m' e' /\
    Z.log2 m + e <= Z.log2 (Zpos m') + e'.
Proof.
  intros Hm Hmag. unfold binary_round_aux.
  destruct (shr_fexp_mag m e l Hm Hmag) as [H1 H2].
  destruct (shr_fexp prec emax m e l) as [mrs' e']. simpl in H1, H2.
  destruct (round_nearest_even_mag (shr_m mrs') (loc_of_shr_record mrs') H1)
    as [H3 H4].
  destruct (shr_fexp_mag (round_nearest_even (shr_m mrs') (loc_of_shr_record mrs'))
              e' loc_Exact H3 ltac:(lia)) as [H5 H6].
  destruct (shr_fexp prec emax _ e' loc_Exact) as [mrs'' e'']. simpl in H5, H6.
  destruct (shr_m mrs'') as [|q|q]; try lia.
  destruct (e'' <=? emax - prec); [right|left; reflexivity].
  exists q, e''. split; [reflexivity|lia].
Qed.
End Magnitude.

#[local] Arguments Z.log2 : simpl never.

Lemma log2_pshift (c : positive) (k : Z) :
  0 <= k -> Z.log2 (Zpos (pshift c k)) = Z.log2 (Zpos c) + k.
Proof.
  intros Hk. pose proof (digits2_pos_pshift c k Hk) as H.
  rewrite !digits2_pos_log2 in H. lia.
Qed.

Lemma pow2_le_nonneg (k : Z) (x : spec_float) : pow2_le k x -> nonneg_float x.
Proof. destruct x as [[]|[]| |[] m e]; simpl; intros H; tauto || reflexivity. Qed.

Lemma pow2_le_positive (k : Z) (x : spec_float) :
  pow2_le k x -> SFltb d_zero x = true.
Proof. destruct x as [[]|[]| |[] m e]; simpl; intros H; tauto || reflexivity. Qed.

(** A positive integer below [2^53] converts to a double at least as
    large as the power of two below it. *)
Lemma double_of_int_pow2_le (x : Z) :
  0 < x < 2 ^ 53 -> pow2_le (Z.log2 x) (double_of_int x).
Proof.
  intros Hx. destruct x as [|p|p]; try lia.
  rewrite double_of_int_pos by lia.
  pose proof (digits2_pos_bound p 53 ltac:(lia) ltac:(lia)) as Hd.
  unfold pow2_le. rewrite log2_pshift by lia. lia.
Qed.

Lemma binary_round_mag (s : bool) (m : positive) (e : Z) :
  emin d_prec d_emax < Z.log2 (Zpos m) + 1 + e ->
  binary_round d_prec d_emax s m e = S754_infinity s \/
  exists m' e',
    binary_round d_prec d_emax s m e = S754_finite s m' e' /\
    Z.log2 (Zpos m) + e <= Z.log2 (Zpos m') + e'.
Proof.
  intros Hmag. unfold binary_round, shl_align.
  destruct (fexp d_prec d_emax (Zpos (digits2_pos m) + e) - e) as [|d|d] eqn:Hd.
  - apply binary_round_aux_mag; [reflexivity|lia|assumption].
  - apply binary_round_aux_mag; [reflexivity|lia|assumption].
  - assert (HL : Z.log2 (Zpos (Pos.iter xO m d)) = Z.log2 (Zpos m) + Zpos d)
      by (apply (log2_pshift m (Zpos d)); lia).
    destruct (binary_round_aux_mag d_prec d_emax ltac:(reflexivity) s
                (Zpos (Pos.iter xO m d))
                (fexp d_prec d_emax (Zpos (digits2_pos m) + e)) loc_Exact
                ltac:(lia) ltac:(rewrite HL; lia))
      as [Hinf|(m' & e' & Hr & Hle)]; [left; assumption|right].
    exists m', e'. split; [assumption|]. rewrite HL in Hle. lia.
Qed.

(** Adding a non-negative double to one that is at least [2^k] gives one
    that is at least [2^k]. *)
Lemma d_add_pow2_le_l (k : Z) (x y : spec_float) :
  -1074 <= k -> pow2_le k x -> nonneg_float y -> pow2_le k (d_add x y).
Proof.
  intros Hk.
  destruct x as [[]|[]| |[] mx ex], y as [[]|[]| |[] my ey];
    simpl; intros Hx Hy; try (discriminate || contradiction || exact I || lia).
  fold (pow2_le k).
  pose proof (Z.le_min_l ex ey) as Hz1. pose proof (Z.le_min_r ex ey) as Hz2.
  rewrite !shl_align_pshift by assumption. simpl fst.
  assert (HL : Z.log2 (Zpos mx) + ex <=
               Z.log2 (Zpos (pshift mx (ex - Z.min ex ey) + pshift my (ey - Z.min ex ey)))
                 + Z.min ex ey).
  { pose proof (log2_pshift mx (ex - Z.min ex ey) ltac:(lia)) as H1.
    assert (Z.log2 (Zpos (pshift mx (ex - Z.min ex ey))) <=
            Z.log2 (Zpos (pshift mx (ex - Z.min ex ey) + pshift my (ey - Z.min ex ey))))
      by (apply Z.log2_le_mono; lia).
    lia. }
  destruct (binary_round_mag false
              (pshift mx (ex - Z.min ex ey) + pshift my (ey - Z.min ex ey))
              (Z.min ex ey)) as [->|(m' & e' & -> & Hle)];
    [unfold emin, d_prec, d_emax; lia|exact I|simpl; lia].
Qed.

Lemma d_add_pow2_le_r (k : Z) (x y : spec_float) :
  -1074 <= k -> nonneg_float x -> pow2_le k y -> pow2_le k (d_add x y).
Proof.
  intros Hk.
  destruct x as [[]|[]| |[] mx ex], y as [[]|[]| |[] my ey];
    simpl; intros Hx Hy; try (discriminate || contradiction || exact I || lia).
  fold (pow2_le k).
  pose proof (Z.le_min_l ex ey) as Hz1. pose proof (Z.le_min_r ex ey) as Hz2.
  rewrite !shl_align_pshift by assumption. simpl fst.
  assert (HL : Z.log2 (Zpos my) + ey <=
               Z.log2 (Zpos (pshift mx (ex - Z.min ex ey) + pshift my (ey - Z.min ex ey)))
                 + Z.min ex ey).
  { pose proof (log2_pshift my (ey - Z.min ex ey) ltac:(lia)) as H1.
    assert (Z.log2 (Zpos (pshift my (ey - Z.min ex ey))) <=
            Z.log2 (Zpos (pshift mx (ex - Z.min ex ey) + pshift my (ey - Z.min ex ey))))
      by (apply Z.log2_le_mono; lia).
    lia. }
  destruct (binary_round_mag false
              (pshift mx (ex - Z.min ex ey) + pshift my (ey - Z.min ex ey))
              (Z.min ex ey)) as [->|(m' & e' & -> & Hle)];
    [unfold emin, d_prec, d_emax; lia|exact I|simpl; lia].
Qed.

Lemma shifted_mantissa (m : positive) (s : Z) :
  0 <= s ->
  match s with
  | Zpos _ => Z.shiftl (Zpos m) s
  | Z0 => Zpos m
  | Zneg _ => 0
  end = Zpos m * 2 ^ s.
Proof.
  intros Hs. destruct s as [|p|p]; try lia.
  apply Z.shiftl_mul_pow2. lia.
Qed.

Lemma log2_div_lower (a b : Z) :
  0 < b -> Z.log2 b < Z.log2 a ->
  0 < a / b /\ Z.log2 a - Z.log2 b - 1 <= Z.log2 (a / b).
Proof.
  intros Hb Hlt.
  assert (Ha : 0 < a).
  { destruct (Z_lt_le_dec 0 a) as [|Hle]; [assumption|].
    rewrite (Z.log2_nonpos a Hle) in Hlt. pose proof (Z.log2_nonneg b). lia. }
  pose proof (Z.log2_spec a Ha) as [Hal _].
  pose proof (Z.log2_spec b Hb) as [_ Hbu].
  pose proof (Z.log2_nonneg b) as Hb0.
  assert (Hq : 2 ^ (Z.log2 a - Z.log2 b - 1) <= a / b).
  { apply Z.div_le_lower_bound; [assumption|].
    replace (Z.log2 a) with (Z.succ (Z.log2 b) + (Z.log2 a - Z.log2 b - 1)) in Hal
      by lia.
    rewrite Z.pow_add_r in Hal by lia.
    assert (0 < 2 ^ (Z.log2 a - Z.log2 b - 1)) by (apply Z.pow_pos_nonneg; lia).
    nia. }
  assert (0 < 2 ^ (Z.log2 a - Z.log2 b - 1)) by (apply Z.pow_pos_nonneg; lia).
  split; [lia|]. apply Z.log2_le_pow2; lia.
Qed.

(** Dividing a double that is at least [2^k] by a positive finite double
    below [2^(j+1)] gives one that is at least [2^(k-j-1)]. *)
Lemma d_div_pow2_le (k j : Z) (x : spec_float) (my : positive) (ey : Z) :
  -1021 <= k - j ->
  pow2_le k x -> Z.log2 (Zpos my) + ey <= j ->
  pow2_le (k - j - 1) (d_div x (S754_finite false my ey)).
Proof.
  intros Hkj. destruct x as [[]|[]| |[] mx ex];
    simpl; intros Hx Hy; try (contradiction || exact I).
  fold (pow2_le (k - j - 1)). unfold SFdiv_core_binary.
  simpl Zdigits2. rewrite !digits2_pos_log2.
  set (Lx := Z.log2 (Zpos mx)) in *. set (Ly := Z.log2 (Zpos my)) in *.
  set (e' := Z.min (fexp d_prec d_emax (Lx + 1 + ex - (Ly + 1 + ey))) (ex - ey)).
  assert (He' : e' <= ex - ey /\ Ly + 53 <= Lx + (ex - ey - e')).
  { unfold e', fexp, emin, d_prec, d_emax. lia. }
  rewrite (shifted_mantissa mx (ex - ey - e')) by lia.
  assert (HL : Z.log2 (Zpos mx * 2 ^ (ex - ey - e')) = Lx + (ex - ey - e')).
  { rewrite Z.log2_mul_pow2 by lia. unfold Lx. lia. }
  destruct (log2_div_lower (Zpos mx * 2 ^ (ex - ey - e')) (Zpos my)
              ltac:(lia) ltac:(rewrite HL; fold Ly; lia)) as [Hq Hlq].
  rewrite HL in Hlq. fold Ly in Hlq.
  change (Zpos mx * 2 ^ (ex - ey - e') / Zpos my)
    with (fst (Z.div_eucl (Zpos mx * 2 ^ (ex - ey - e')) (Zpos my))) in Hq, Hlq.
  destruct (Z.div_eucl (Zpos mx * 2 ^ (ex - ey - e')) (Zpos my)) as [q r].
  simpl in Hq, Hlq.
  destruct (binary_round_aux_mag d_prec d_emax ltac:(reflexivity) false q e'
              (new_location (Zpos my) r) Hq
              ltac:(unfold emin, d_prec, d_emax; lia))
    as [->|(m' & e'' & -> & Hle)]; [exact I|simpl; lia].
Qed.

Lemma log2_sqrt_lower (a : Z) :
  0 < a -> 0 < Z.sqrt a /\ Z.log2 a <= 2 * Z.log2 (Z.sqrt a) + 1.
Proof.
  intros Ha.
  assert (Hq : 0 < Z.sqrt a) by (apply Z.sqrt_pos; assumption).
  split; [assumption|].
  pose proof (Z.sqrt_spec a ltac:(lia)) as [_ Hu].
  pose proof (Z.log2_spec (Z.sqrt a) Hq) as [_ Hqu].
  pose proof (Z.log2_nonneg (Z.sqrt a)) as Hq0.
  assert (a < 2 ^ (2 * Z.log2 (Z.sqrt a) + 2)).
  { replace (2 * Z.log2 (Z.sqrt a) + 2)
      with (Z.succ (Z.log2 (Z.sqrt a)) + Z.succ (Z.log2 (Z.sqrt a))) by lia.
    rewrite Z.pow_add_r by lia. nia. }
  assert (Z.log2 a < 2 * Z.log2 (Z.sqrt a) + 2)
    by (apply Z.log2_lt_pow2; assumption).
  lia.
Qed.

(** The square root of a double that is at least [2^k] is at least
    [2^j] whenever [2 j + 1 <= k]. *)
Lemma d_sqrt_pow2_le (k j : Z) (x : spec_float) :
  -1074 <= j -> 2 * j + 1 <= k ->
  pow2_le k x -> pow2_le j (d_sqrt x).
Proof.
  intros Hj Hjk. destruct x as [[]|[]| |[] mx ex];
    simpl; intros Hx; try (contradiction || exact I).
  fold (pow2_le j). unfold SFsqrt_core_binary.
  simpl Zdigits2. rewrite digits2_pos_log2.
  set (Lx := Z.log2 (Zpos mx)) in *.
  set (e' := Z.min (fexp d_prec d_emax (Z.div2 (Lx + 1 + ex + 1))) (Z.div2 ex)).
  assert (He' : 2 * e' <= ex).
  { pose proof (Z.le_min_r (fexp d_prec d_emax (Z.div2 (Lx + 1 + ex + 1))) (Z.div2 ex)).
    fold e' in H. rewrite Z.div2_div in H.
    pose proof (Z.mul_div_le ex 2 ltac:(lia)). lia. }
  rewrite (shifted_mantissa mx (ex - 2 * e')) by lia.
  assert (HL : Z.log2 (Zpos mx * 2 ^ (ex - 2 * e')) = Lx + (ex - 2 * e')).
  { rewrite Z.log2_mul_pow2 by lia. unfold Lx. lia. }
  assert (Hpos : 0 < Zpos mx * 2 ^ (ex - 2 * e')).
  { apply Z.mul_pos_pos; [lia|]. apply Z.pow_pos_nonneg; lia. }
  destruct (log2_sqrt_lower _ Hpos) as [Hq Hlq]. rewrite HL in Hlq.
  rewrite <- Z.sqrtrem_sqrt in Hq, Hlq.
  destruct (Z.sqrtrem (Zpos mx * 2 ^ (ex - 2 * e'))) as [q r].
  simpl in Hq, Hlq.
  match goal with
  | |- pow2_le j (binary_round_aux _ _ _ _ _ ?l) =>
      destruct (binary_round_aux_mag d_prec d_emax ltac:(reflexivity) false q e'
                  l Hq ltac:(unfold emin, d_prec, d_emax; lia))
        as [->|(m' & e'' & -> & Hle)]; [exact I|simpl; lia]
  end.
Qed.

Lemma pow2_le_weaken (k k' : Z) (x : spec_float) :
  k' <= k -> pow2_le k x -> pow2_le k' x.
Proof. destruct x as [[]|[]| |[] m e]; simpl; intros; try tauto; lia. Qed.

Lemma rms_step_square (acc : spec_float) (s : Z) :
  int16_range s -> rms_step acc s = d_add acc (double_of_int (s * s)).
Proof. intros Hs. unfold rms_step. now rewrite double_square_exact. Qed.

Lemma square_nonneg_float (s : Z) : nonneg_float (double_of_int (s * s)).
Proof.
  pose proof (double_of_int_sign (s * s)) as H.
  destruct (Z.ltb_spec (s * s) 0); [nia|exact H].
Qed.

Lemma square_pow2_le (s : Z) :
  int16_range s -> s <> 0 -> pow2_le 0 (double_of_int (s * s)).
Proof.
  unfold int16_range. intros Hs Hne.
  apply (pow2_le_weaken (Z.log2 (s * s))); [apply Z.log2_nonneg|].
  apply double_of_int_pow2_le. nia.
Qed.

(** Once the running sum has reached 1 it stays there. *)
Lemma fold_pow2_le_keep (buf : list Z) :
  Forall int16_range buf ->
  forall acc, pow2_le 0 acc -> pow2_le 0 (fold_left rms_step buf acc).
Proof.
  induction 1 as [|s buf Hs _ IH]; intros acc Hacc; [assumption|].
  simpl. apply IH. rewrite rms_step_square by assumption.
  apply d_add_pow2_le_l; [lia|assumption|apply square_nonneg_float].
Qed.

(** A non-zero sample brings the running sum to 1 at least. *)
Lemma fold_pow2_le (buf : list Z) :
  Forall int16_range buf ->
  Exists (fun s => s <> 0) buf ->
  forall acc, nonneg_float acc -> pow2_le 0 (fold_left rms_step buf acc).
Proof.
  induction 1 as [|s buf Hs Hbuf IH]; intros HE acc Hacc;
    [inversion HE|].
  simpl. rewrite rms_step_square by assumption.
  destruct (Z.eq_dec s 0) as [->|Hne].
  - apply IH.
    + inversion HE as [? ? H0|]; [congruence|assumption].
    + apply d_add_nonneg; [assumption|reflexivity].
  - apply fold_pow2_le_keep; [assumption|].
    apply d_add_pow2_le_r; [lia|assumption|now apply square_pow2_le].
Qed.

Lemma fold_all_zero (buf : list Z) :
  Forall (fun s => s = 0) buf -> fold_left rms_step buf d_zero = d_zero.
Proof. induction 1 as [|s buf -> _ IH]; [reflexivity|exact IH]. Qed.

Lemma all_zero_or_not (buf : list Z) :
  Forall (fun s => s = 0) buf \/ Exists (fun s => s <> 0) buf.
Proof.
  induction buf as [|s buf [IH|IH]]; [left; constructor| |right; now constructor].
  destruct (Z.eq_dec s 0); [left|right]; now constructor.
Qed.

(** The shape of [(double)n] for a positive [int]. *)
Lemma double_of_int_count (n : Z) :
  1 <= n -> int_range n ->
  exists mn en,
    double_of_int n = S754_finite false mn en /\ Z.log2 (Zpos mn) + en <= 30.
Proof.
  unfold int_range. intros Hn Hr. destruct n as [|p|p]; try lia.
  pose proof (digits2_pos_bound p 31 ltac:(lia) ltac:(lia)) as Hd.
  rewrite double_of_int_pos by lia.
  eexists _, _. split; [reflexivity|].
  rewrite log2_pshift by lia. rewrite digits2_pos_log2 in *. lia.
Qed.

(** X9: for [n >= 1] the result is [+0.0] exactly when every sample is
    zero; as soon as one sample is not, the result is strictly positive,
    at least [2^-16]. *)
Theorem vox_rms_int16_silence (m : mem) (samples n : Z) (buf : list Z) :
  1 <= n -> int_range n ->
  Z.of_nat (length buf) = n -> array_i16 m samples buf ->
  exists v,
    vox_rms_int16 samples n m = Some (v, m) /\
    (v = d_zero <-> Forall (fun s => s = 0) buf) /\
    (Exists (fun s => s <> 0) buf -> SFltb d_zero v = true /\ pow2_le (-16) v).
Proof.
  intros Hn Hr Hlen HA.
  rewrite (vox_rms_int16_run m samples n buf Hn Hlen HA).
  eexists. split; [reflexivity|].
  destruct (double_of_int_count n Hn Hr) as (mn & en & -> & Hmag).
  assert (Hpos : Exists (fun s => s <> 0) buf ->
                 pow2_le (-16)
                   (d_sqrt (d_div (fold_left rms_step buf d_zero)
                                  (S754_finite false mn en)))).
  { intros HE. apply (d_sqrt_pow2_le (-31)); [lia|lia|].
    apply (d_div_pow2_le 0 30); [lia| |assumption].
    apply fold_pow2_le; [exact (array_i16_range m buf samples HA)|assumption|].
    reflexivity. }
  split; [split|].
  - intros Hv. destruct (all_zero_or_not buf) as [|HE]; [assumption|].
    apply Hpos in HE. rewrite Hv in HE. contradiction.
  - intros Hz. now rewrite fold_all_zero.
  - intros HE. split; [|now apply Hpos].
    apply (pow2_le_positive (-16)). now apply Hpos.
Qed.


(** ** The conversion loses nothing *)

(** Floats that compare equal have the same value. *)
Lemma SFcompare_Eq_value (x y : spec_float) (qx qy : Q) :
  SFcompare x y = Some Eq -> represents x qx -> represents y qy ->
  (qx == qy)%Q.
Proof.
  unfold represents.
  destruct x as [sx|sx| |sx mx ex], y as [sy|sy| |sy my ey];
    simpl; try contradiction; try (destruct sx; discriminate);
    try (destruct sy; discriminate).
  - intros _ Hx Hy. now rewrite <- Hx, <- Hy.
  - change (Pos.compare_cont Eq mx my) with (Pos.compare mx my).
    destruct sx, sy; try discriminate;
      destruct (Z.compare_spec ex ey); try discriminate;
      destruct (Pos.compare_spec mx my); try discriminate;
      subst; intros _ Hx Hy; now rewrite <- Hx, <- Hy.
Qed.

Lemma SFcompare_antisym (x y : spec_float) :
  SFcompare y x = option_map CompOpp (SFcompare x y).
Proof.
  destruct x as [[]|[]| |[] mx ex], y as [[]|[]| |[] my ey];
    try reflexivity; simpl;
    change (Pos.compare_cont Eq ?a ?b) with (Pos.compare a b);
    rewrite (Z.compare_antisym ex ey), (Pos.compare_antisym mx my);
    destruct (ex ?= ey), (mx ?= my)%positive; reflexivity.
Qed.

Lemma pcm_scale_injective (a b : Z) :
  int16_range a -> int16_range b -> pcm_scale a = pcm_scale b -> a = b.
Proof.
  intros Ha Hb E.
  destruct (pcm_scale_facts a Ha) as (Ra & _).
  destruct (pcm_scale_facts b Hb) as (Rb & _).
  rewrite E in Ra. unfold represents in *.
  destruct (SFval (pcm_scale b)); [|contradiction].
  rewrite Ra in Rb. unfold Qeq in Rb. simpl in Rb. lia.
Qed.

Lemma pcm_scale_strict (a b : Z) :
  int16_range a -> int16_range b -> a < b ->
  SFltb (pcm_scale a) (pcm_scale b) = true.
Proof.
  intros Ha Hb Hab.
  pose proof (pcm_scale_mono a b Ha Hb ltac:(lia)) as Hle.
  destruct (pcm_scale_facts a Ha) as (Ra & _).
  destruct (pcm_scale_facts b Hb) as (Rb & _).
  unfold SFleb in Hle. unfold SFltb.
  destruct (SFcompare (pcm_scale a) (pcm_scale b)) as [[]|] eqn:Hc;
    try discriminate; [|reflexivity].
  pose proof (SFcompare_Eq_value _ _ _ _ Hc Ra Rb) as Hq.
  unfold Qeq in Hq. simpl in Hq. lia.
Qed.

(** X8: the conversion loses nothing: on the values of [int16_t] it
    preserves and reflects the order, strict and non-strict, and distinct
    samples are converted to distinct floats. *)
Theorem pcm_scale_order_embedding (a b : Z) :
  int16_range a -> int16_range b ->
  SFltb (pcm_scale a) (pcm_scale b) = (a <? b) /\
  SFleb (pcm_scale a) (pcm_scale b) = (a <=? b) /\
  (pcm_scale a = pcm_scale b <-> a = b).
Proof.
  intros Ha Hb. split; [|split].
  - destruct (Z.ltb_spec a b) as [Hlt|Hge]; [now apply pcm_scale_strict|].
    pose proof (pcm_scale_mono b a Hb Ha Hge) as Hle.
    unfold SFleb in Hle. unfold SFltb.
    rewrite (SFcompare_antisym (pcm_scale b) (pcm_scale a)).
    destruct (SFcompare (pcm_scale b) (pcm_scale a)) as [[]|];
      try discriminate; reflexivity.
  - destruct (Z.leb_spec a b) as [Hle|Hgt]; [now apply pcm_scale_mono|].
    pose proof (pcm_scale_strict b a Hb Ha Hgt) as Hlt.
    unfold SFltb in Hlt. unfold SFleb.
    rewrite (SFcompare_antisym (pcm_scale b) (pcm_scale a)).
    destruct (SFcompare (pcm_scale b) (pcm_scale a)) as [[]|];
      try discriminate; reflexivity.
  - split; [now apply pcm_scale_injective|now intros ->].
Qed.


(** ** Upper bounds *)

Lemma shr_ceil_of_loc (m : Z) (l : location) :
  shr_ceil (shr_record_of_loc m l) = m + loc_carry l.
Proof. destruct l as [|[]]; reflexivity. Qed.

Lemma shr_m_le_ceil (mrs : shr_record) : shr_m mrs <= shr_ceil mrs.
Proof. destruct mrs as [m [] []]; unfold shr_ceil; simpl; lia. Qed.

Lemma shr_1_ceil (mrs : shr_record) (B : Z) :
  0 <= shr_m mrs -> shr_ceil mrs <= 2 * B -> shr_ceil (shr_1 mrs) <= B.
Proof.
  destruct mrs as [[|[q|q|]|q] [] []]; unfold shr_ceil; simpl; lia.
Qed.

Lemma iter_shr_1_ceil (r : positive) :
  forall mrs B,
    0 <= shr_m mrs -> shr_ceil mrs <= B * 2 ^ Zpos r ->
    shr_ceil (SpecFloat.iter_pos shr_1 r mrs) <= B.
Proof.
  intros mrs B. rewrite iter_pos_iter. revert B.
  induction r as [|r IH] using Pos.peano_ind; intros B Hm Hc.
  - simpl Pos.iter. apply shr_1_ceil; [assumption|]. simpl in Hc. lia.
  - rewrite Pos.iter_succ. apply shr_1_ceil.
    + rewrite <- iter_pos_iter. now apply iter_pos_shr_1_nonneg.
    + apply IH; [assumption|].
      rewrite Pos2Z.inj_succ, Z.pow_succ_r in Hc by lia. lia.
Qed.

Lemma round_nearest_even_le_ceil (mrs : shr_record) :
  round_nearest_even (shr_m mrs) (loc_of_shr_record mrs) <= shr_ceil mrs.
Proof.
  destruct mrs as [m [] []]; unfold shr_ceil; simpl; try lia.
  destruct (Z.even m); lia.
Qed.

Lemma Zdigits2_bound (m k : Z) :
  0 <= m -> 0 <= k -> m < 2 ^ k -> Zdigits2 m <= k.
Proof.
  intros Hm Hk Hlt. destruct m as [|p|p]; simpl; try lia.
  now apply digits2_pos_bound.
Qed.

Section UpperBound.
Variables prec emax : Z.
Hypothesis Hprec : 0 < prec.

Lemma shr_fexp_ub (m e : Z) (l : location) (b c : Z) :
  0 <= m -> 0 < b < 2 ^ prec -> e <= c -> emin prec emax <= c ->
  m + loc_carry l <= b * 2 ^ (c - e) ->
  snd (shr_fexp prec emax m e l) <= c /\
  shr_ceil (fst (shr_fexp prec emax m e l))
    <= b * 2 ^ (c - snd (shr_fexp prec emax m e l)).
Proof.
  intros Hm Hb He Hc Hub. unfold shr_fexp, shr.
  destruct (fexp prec emax (Zdigits2 m + e) - e) as [|r|r] eqn:Hr; simpl;
    rewrite ?shr_ceil_of_loc; try (split; assumption).
  assert (Hd : Zdigits2 m <= prec + (c - e)).
  { apply Zdigits2_bound; [assumption|lia|].
    rewrite Z.pow_add_r by lia.
    assert (0 < 2 ^ (c - e)) by (apply Z.pow_pos_nonneg; lia).
    assert (0 <= loc_carry l) by (destruct l; simpl; lia).
    nia. }
  assert (He1 : e + Zpos r <= c) by (unfold fexp in Hr; lia).
  split; [assumption|].
  apply iter_shr_1_ceil; [now rewrite shr_record_of_loc_m|].
  rewrite shr_ceil_of_loc, <- Z.mul_assoc, <- Z.pow_add_r by lia.
  now replace (c - (e + Zpos r) + Zpos r) with (c - e) by lia.
Qed.

(** Rounding never crosses [b * 2^c]: a value at most [b * 2^c] rounds
    to [+0.0] or to a finite float at most [b * 2^c]. *)
Lemma binary_round_aux_ub (m e : Z) (l : location) (b c : Z) :
  0 <= m -> 0 < b < 2 ^ prec -> e <= c ->
  emin prec emax <= c -> c <= emax - prec ->
  m + loc_carry l <= b * 2 ^ (c - e) ->
  ub b c (binary_round_aux prec emax false m e l).
Proof.
  intros Hm Hb He Hc Hc' Hub. unfold binary_round_aux.
  pose proof (shr_fexp_nonneg prec emax m e l Hm) as H0.
  destruct (shr_fexp_ub m e l b c Hm Hb He Hc Hub) as [H1 H2].
  destruct (shr_fexp prec emax m e l) as [mrs' e']. simpl in H0, H1, H2.
  pose proof (round_nearest_even_nonneg _ (loc_of_shr_record mrs') H0) as H3.
  pose proof (round_nearest_even_le_ceil mrs') as H4.
  pose proof (shr_fexp_nonneg prec emax _ e' loc_Exact H3) as H5.
  destruct (shr_fexp_ub _ e' loc_Exact b c H3 Hb H1 Hc
              ltac:(simpl; lia)) as [H6 H7].
  destruct (shr_fexp prec emax _ e' loc_Exact) as [mrs'' e''].
  simpl in H5, H6, H7.
  pose proof (shr_m_le_ceil mrs'') as H8.
  destruct (shr_m mrs'') as [|q|q]; simpl; [exact I| |lia].
  destruct (Z.leb_spec e'' (emax - prec)); [|lia].
  simpl. split; [assumption|lia].
Qed.
End UpperBound.

Lemma Zpos_pshift (c : positive) (k : Z) :
  0 <= k -> Zpos (pshift c k) = Zpos c * 2 ^ k.
Proof.
  intros Hk. destruct k as [|d|d]; try lia; simpl pshift; [simpl; lia|].
  induction d as [|d IH] using Pos.peano_ind; [simpl; lia|].
  rewrite Pos.iter_succ, Pos2Z.inj_xO, IH, Pos2Z.inj_succ, Z.pow_succ_r by lia.
  lia.
Qed.

Lemma ub_weaken (b b' c : Z) (x : spec_float) :
  b <= b' -> ub b c x -> ub b' c x.
Proof.
  intros Hb. destruct x as [[]|[]| |[] m e]; simpl; try tauto.
  intros [He Hm]. split; [assumption|].
  assert (0 < 2 ^ (c - e)) by (apply Z.pow_pos_nonneg; lia). nia.
Qed.

(** The value of [(double)x] for a non-negative integer below [2^53]. *)
Lemma double_of_int_ub (x b c : Z) :
  0 <= x < 2 ^ 53 -> 0 <= c -> x <= b * 2 ^ c ->
  ub b c (double_of_int x).
Proof.
  intros Hx Hc Hb. destruct x as [|p|p]; try lia; [exact I|].
  pose proof (digits2_pos_bound p 53 ltac:(lia) ltac:(lia)) as Hd.
  rewrite double_of_int_pos by lia. simpl. split; [lia|].
  rewrite Zpos_pshift by lia.
  replace (c - (Zpos (digits2_pos p) - 53)) with (c + (53 - Zpos (digits2_pos p)))
    by lia.
  rewrite Z.pow_add_r by lia.
  assert (0 < 2 ^ (53 - Zpos (digits2_pos p))) by (apply Z.pow_pos_nonneg; lia).
  nia.
Qed.

Lemma binary_round_ub (M : positive) (e b c : Z) :
  0 < b < 2 ^ 53 -> e <= c -> -1074 <= c <= 971 ->
  Zpos M <= b * 2 ^ (c - e) ->
  ub b c (binary_round d_prec d_emax false M e).
Proof.
  intros Hb He Hc HM. unfold binary_round, shl_align.
  assert (Hf : fexp d_prec d_emax (Zpos (digits2_pos M) + e) - e <= c - e).
  { assert (Zpos (digits2_pos M) <= 53 + (c - e)).
    { apply digits2_pos_bound; [lia|]. rewrite Z.pow_add_r by lia.
      assert (0 < 2 ^ (c - e)) by (apply Z.pow_pos_nonneg; lia). nia. }
    unfold fexp, emin, d_prec, d_emax. lia. }
  destruct (fexp d_prec d_emax (Zpos (digits2_pos M) + e) - e) as [|d|d] eqn:Hd.
  - apply binary_round_aux_ub; unfold emin, d_prec, d_emax;
      try reflexivity; simpl loc_carry; lia.
  - apply binary_round_aux_ub; unfold emin, d_prec, d_emax;
      try reflexivity; simpl loc_carry; lia.
  - assert (Hm : Zpos (Pos.iter xO M d) + 0 <=
                 b * 2 ^ (c - fexp d_prec d_emax (Zpos (digits2_pos M) + e))).
    { change (Pos.iter xO M d) with (pshift M (Zpos d)).
      rewrite Zpos_pshift by lia.
      replace (c - fexp d_prec d_emax (Zpos (digits2_pos M) + e))
        with (c - e + Zpos d) by lia.
      rewrite Z.pow_add_r by lia.
      assert (0 < 2 ^ Zpos d) by (apply Z.pow_pos_nonneg; lia).
      nia. }
    apply binary_round_aux_ub; try exact Hm; unfold emin, d_prec, d_emax in *;
      try reflexivity; lia.
Qed.

(** The sum of two doubles at most [b1 * 2^c] and [b2 * 2^c] is at most
    [(b1 + b2) * 2^c]. *)
Lemma d_add_ub (b1 b2 c : Z) (x y : spec_float) :
  0 <= b1 -> 0 <= b2 -> b1 + b2 < 2 ^ 53 -> -1074 <= c <= 971 ->
  ub b1 c x -> ub b2 c y -> ub (b1 + b2) c (d_add x y).
Proof.
  intros Hb1 Hb2 Hb Hc.
  destruct x as [[]|[]| |[] mx ex], y as [[]|[]| |[] my ey];
    try (simpl; tauto); intros Hx Hy.
  - apply (ub_weaken b2); [lia|exact Hy].
  - apply (ub_weaken b1); [lia|exact Hx].
  - destruct Hx as [Hex Hmx], Hy as [Hey Hmy]. simpl.
    pose proof (Z.le_min_l ex ey) as Hz1. pose proof (Z.le_min_r ex ey) as Hz2.
    rewrite !shl_align_pshift by assumption. simpl fst.
    assert (0 < 2 ^ (c - ex)) by (apply Z.pow_pos_nonneg; lia).
    assert (0 < 2 ^ (c - ey)) by (apply Z.pow_pos_nonneg; lia).
    assert (0 < b1) by nia.
    apply binary_round_ub; try lia.
    rewrite Pos2Z.inj_add, !Zpos_pshift by lia.
    replace (c - Z.min ex ey) with (c - ex + (ex - Z.min ex ey)) at 1 by lia.
    rewrite Z.pow_add_r by lia.
    assert (Hy' : 2 ^ (c - ex) * 2 ^ (ex - Z.min ex ey) =
                  2 ^ (c - ey) * 2 ^ (ey - Z.min ex ey)).
    { rewrite <- !Z.pow_add_r by lia. f_equal. lia. }
    assert (0 < 2 ^ (ex - Z.min ex ey)) by (apply Z.pow_pos_nonneg; lia).
    assert (0 < 2 ^ (ey - Z.min ex ey)) by (apply Z.pow_pos_nonneg; lia).
    nia.
Qed.

(** The running sum of [i] squares is at most [i * 2^30]. *)
Lemma fold_ub (buf : list Z) :
  Forall int16_range buf ->
  forall i acc,
    0 <= i -> i + Z.of_nat (length buf) < 2 ^ 53 ->
    ub i 30 acc ->
    ub (i + Z.of_nat (length buf)) 30 (fold_left rms_step buf acc).
Proof.
  induction 1 as [|s buf Hs _ IH]; intros i acc Hi Hlen Hacc.
  - simpl. now rewrite Z.add_0_r.
  - simpl length in *. simpl fold_left.
    replace (i + Z.of_nat (S (length buf))) with (i + 1 + Z.of_nat (length buf))
      in * by lia.
    apply IH; try lia.
    rewrite rms_step_square by assumption.
    apply d_add_ub; try lia; [assumption|].
    unfold int16_range in Hs. apply double_of_int_ub; nia.
Qed.

Lemma new_location_carry (nb k : Z) :
  loc_carry (new_location nb k) = if k =? 0 then 0 else 1.
Proof.
  unfold new_location, new_location_even, new_location_odd.
  destruct (Z.even nb), (k =? 0); reflexivity.
Qed.

(** The shape and the exact value of [(double)n] for a positive [int]. *)
Lemma double_of_int_count_value (n : Z) :
  1 <= n -> int_range n ->
  exists my ey,
    double_of_int n = S754_finite false my ey /\
    ey <= 0 /\ Zpos my = n * 2 ^ (- ey) /\
    Z.log2 (Zpos my) + ey = Z.log2 n.
Proof.
  unfold int_range. intros Hn Hr. destruct n as [|p|p]; try lia.
  pose proof (digits2_pos_bound p 31 ltac:(lia) ltac:(lia)) as Hd.
  rewrite double_of_int_pos by lia.
  eexists _, _. split; [reflexivity|]. split; [lia|]. split.
  - rewrite Zpos_pshift by lia. do 2 f_equal. lia.
  - rewrite log2_pshift by lia. lia.
Qed.

(** A sum of [n] squares at most [n * 2^30] divided by [(double)n] is at
    most [2^30]. *)
Lemma d_div_ub (n : Z) (x : spec_float) (my : positive) (ey : Z) :
  1 <= n -> ub n 30 x ->
  ey <= 0 -> Zpos my = n * 2 ^ (- ey) -> Z.log2 (Zpos my) + ey = Z.log2 n ->
  ub 1 30 (d_div x (S754_finite false my ey)).
Proof.
  intros Hn. destruct x as [[]|[]| |[] mx ex];
    try (simpl; tauto); intros [Hex Hmx] Hey Hmy Hly.
  simpl. unfold SFdiv_core_binary. simpl Zdigits2. rewrite !digits2_pos_log2.
  set (Lx := Z.log2 (Zpos mx)) in *. set (Ly := Z.log2 (Zpos my)) in *.
  assert (HLx : Lx + ex <= Z.log2 n + 30).
  { assert (Lx < Z.log2 n + 1 + (30 - ex)); [|lia].
    apply Z.log2_lt_pow2; [lia|].
    pose proof (Z.log2_spec n ltac:(lia)) as [_ Hu].
    pose proof (Z.log2_nonneg n).
    replace (Z.log2 n + 1) with (Z.succ (Z.log2 n)) by lia.
    rewrite Z.pow_add_r by lia.
    assert (0 < 2 ^ (30 - ex)) by (apply Z.pow_pos_nonneg; lia). nia. }
  set (e' := Z.min (fexp d_prec d_emax (Lx + 1 + ex - (Ly + 1 + ey))) (ex - ey)).
  assert (He' : e' <= ex - ey /\ e' <= -23).
  { unfold e', fexp, emin, d_prec, d_emax. lia. }
  rewrite (shifted_mantissa mx (ex - ey - e')) by lia.
  assert (Hm' : Zpos mx * 2 ^ (ex - ey - e') <= Zpos my * 2 ^ (30 - e')).
  { rewrite Hmy, <- Z.mul_assoc, <- Z.pow_add_r by lia.
    replace (- ey + (30 - e')) with (30 - ex + (ex - ey - e')) by lia.
    rewrite Z.pow_add_r by lia.
    assert (0 < 2 ^ (ex - ey - e')) by (apply Z.pow_pos_nonneg; lia). nia. }
  pose proof (Z_div_mod (Zpos mx * 2 ^ (ex - ey - e')) (Zpos my) ltac:(lia)) as Hdm.
  destruct (Z.div_eucl (Zpos mx * 2 ^ (ex - ey - e')) (Zpos my)) as [q r].
  destruct Hdm as [Heq Hr].
  assert (0 < 2 ^ (30 - e')) by (apply Z.pow_pos_nonneg; lia).
  assert (0 < Zpos mx * 2 ^ (ex - ey - e')).
  { apply Z.mul_pos_pos; [lia|]. apply Z.pow_pos_nonneg; lia. }
  apply binary_round_aux_ub; try reflexivity; try lia.
  - nia.
  - unfold d_prec. lia.
  - unfold emin, d_prec, d_emax. lia.
  - unfold d_prec, d_emax. lia.
  - rewrite new_location_carry, Z.mul_1_l.
    destruct (Z.eqb_spec r 0); nia.
Qed.

(** The square root of a double at most [2^30] is at most [2^15]. *)
Lemma d_sqrt_ub (x : spec_float) : ub 1 30 x -> ub 1 15 (d_sqrt x).
Proof.
  destruct x as [[]|[]| |[] mx ex]; try (simpl; tauto); intros [Hex Hmx].
  simpl. unfold SFsqrt_core_binary. simpl Zdigits2.
  set (e' := Z.min (fexp d_prec d_emax (Z.div2 (Zpos (digits2_pos mx) + ex + 1)))
                   (Z.div2 ex)).
  assert (He' : 2 * e' <= ex).
  { pose proof (Z.le_min_r (fexp d_prec d_emax (Z.div2 (Zpos (digits2_pos mx) + ex + 1)))
                  (Z.div2 ex)) as H.
    fold e' in H. rewrite Z.div2_div in H.
    pose proof (Z.mul_div_le ex 2 ltac:(lia)). lia. }
  rewrite (shifted_mantissa mx (ex - 2 * e')) by lia.
  assert (Hm' : Zpos mx * 2 ^ (ex - 2 * e') <= 2 ^ (15 - e') * 2 ^ (15 - e')).
  { rewrite <- Z.pow_add_r by lia.
    replace (15 - e' + (15 - e')) with (30 - ex + (ex - 2 * e')) by lia.
    rewrite Z.pow_add_r by lia.
    assert (0 < 2 ^ (ex - 2 * e')) by (apply Z.pow_pos_nonneg; lia). nia. }
  assert (Hpos : 0 < Zpos mx * 2 ^ (ex - 2 * e')).
  { apply Z.mul_pos_pos; [lia|]. apply Z.pow_pos_nonneg; lia. }
  pose proof (Z.sqrtrem_spec (Zpos mx * 2 ^ (ex - 2 * e')) ltac:(lia)) as Hs.
  destruct (Z.sqrtrem (Zpos mx * 2 ^ (ex - 2 * e'))) as [q r].
  destruct Hs as [Heq Hr].
  assert (0 < 2 ^ (15 - e')) by (apply Z.pow_pos_nonneg; lia).
  assert (0 <= q) by nia.
  apply binary_round_aux_ub; try reflexivity; try lia.
  - unfold d_prec. lia.
  - unfold emin, d_prec, d_emax. lia.
  - unfold d_prec, d_emax. lia.
  - rewrite Z.mul_1_l. destruct (Z.eqb_spec r 0); simpl loc_carry; nia.
Qed.

Section Canonical.
Variables prec emax : Z.
Hypothesis Hprec : 0 < prec.

Lemma shr_fexp_exp (m e : Z) (l : location) :
  snd (shr_fexp prec emax m e l) = Z.max e (fexp prec emax (Zdigits2 m + e)).
Proof.
  unfold shr_fexp, shr.
  destruct (fexp prec emax (Zdigits2 m + e) - e) eqn:Hr; simpl; lia.
Qed.

(** A mantissa with digits to spare, above the underflow threshold,
    rounds to a float in the format's canonical form. *)
Lemma binary_round_aux_canonical_out (s : bool) (m e : Z) (l : location) :
  0 < m -> emin prec emax < Z.log2 m + 1 + e ->
  e <= fexp prec emax (Z.log2 m + 1 + e) ->
  binary_round_aux prec emax s m e l = S754_infinity s \/
  exists m' e',
    binary_round_aux prec emax s m e l = S754_finite s m' e' /\
    fexp prec emax (Z.log2 (Zpos m') + 1 + e') = e'.
Proof.
  intros Hm Hmag Hfit. unfold binary_round_aux.
  assert (Hdig : forall z, 0 < z -> Zdigits2 z = Z.log2 z + 1).
  { intros [|p|p] Hz; try lia. apply digits2_pos_log2. }
  destruct (shr_fexp_mag prec emax Hprec m e l Hm Hmag) as [H1 H2].
  pose proof (shr_fexp_exp m e l) as H3. rewrite Hdig in H3 by assumption.
  destruct (shr_fexp prec emax m e l) as [mrs' e']. simpl in H1, H2, H3.
  destruct (round_nearest_even_mag (shr_m mrs') (loc_of_shr_record mrs') H1)
    as [H4 H5].
  set (m2 := round_nearest_even (shr_m mrs') (loc_of_shr_record mrs')) in *.
  destruct (shr_fexp_mag prec emax Hprec m2 e' loc_Exact H4 ltac:(lia))
    as [H6 H7].
  pose proof (shr_fexp_exp m2 e' loc_Exact) as H8.
  rewrite Hdig in H8 by assumption.
  destruct (shr_fexp prec emax m2 e' loc_Exact) as [mrs'' e'']. simpl in H6, H7, H8.
  destruct (shr_m mrs'') as [|q|q]; try lia.
  destruct (e'' <=? emax - prec); [right|left; reflexivity].
  exists q, e''. split; [reflexivity|].
  unfold fexp in *. lia.
Qed.
End Canonical.

(** The square root of a double that is at least [2^k] comes out in
    canonical form. *)
Lemma d_sqrt_canonical (k : Z) (x : spec_float) :
  -2000 <= k -> pow2_le k x ->
  d_sqrt x = S754_infinity false \/
  exists m e,
    d_sqrt x = S754_finite false m e /\
    fexp d_prec d_emax (Z.log2 (Zpos m) + 1 + e) = e.
Proof.
  intros Hk. destruct x as [[]|[]| |[] mx ex];
    simpl; intros Hx; try contradiction; [left; reflexivity|].
  unfold SFsqrt_core_binary. simpl Zdigits2. rewrite digits2_pos_log2.
  set (Lx := Z.log2 (Zpos mx)) in *.
  set (e' := Z.min (fexp d_prec d_emax (Z.div2 (Lx + 1 + ex + 1))) (Z.div2 ex)).
  assert (He' : 2 * e' <= ex /\
                e' <= fexp d_prec d_emax (Z.div2 (Lx + 1 + ex + 1))).
  { pose proof (Z.le_min_r (fexp d_prec d_emax (Z.div2 (Lx + 1 + ex + 1))) (Z.div2 ex)).
    pose proof (Z.le_min_l (fexp d_prec d_emax (Z.div2 (Lx + 1 + ex + 1))) (Z.div2 ex)).
    fold e' in H, H0. rewrite Z.div2_div in H.
    pose proof (Z.mul_div_le ex 2 ltac:(lia)). lia. }
  rewrite (shifted_mantissa mx (ex - 2 * e')) by lia.
  assert (HL : Z.log2 (Zpos mx * 2 ^ (ex - 2 * e')) = Lx + (ex - 2 * e')).
  { rewrite Z.log2_mul_pow2 by lia. unfold Lx. lia. }
  assert (Hpos : 0 < Zpos mx * 2 ^ (ex - 2 * e')).
  { apply Z.mul_pos_pos; [lia|]. apply Z.pow_pos_nonneg; lia. }
  destruct (log2_sqrt_lower _ Hpos) as [Hq Hlq]. rewrite HL in Hlq.
  rewrite <- Z.sqrtrem_sqrt in Hq, Hlq.
  destruct (Z.sqrtrem (Zpos mx * 2 ^ (ex - 2 * e'))) as [q r].
  simpl in Hq, Hlq.
  assert (Hhalf : Z.div2 (Lx + 1 + ex + 1) <= Z.log2 q + 1 + e').
  { rewrite Z.div2_div.
    pose proof (Z.mul_div_le (Lx + 1 + ex + 1) 2 ltac:(lia)). lia. }
  apply binary_round_aux_canonical_out; try reflexivity; try assumption.
  - unfold emin, d_prec, d_emax. lia.
  - unfold fexp, emin, d_prec, d_emax in *. lia.
Qed.

Lemma SFleb_finite_pos_Z (m1 m2 : positive) (e1 e2 : Z) :
  e1 < e2 \/ (e1 = e2 /\ Zpos m1 <= Zpos m2) ->
  SFleb (S754_finite false m1 e1) (S754_finite false m2 e2) = true.
Proof.
  intros H. apply SFleb_finite_pos.
  destruct H as [H|[H1 H2]]; [left; assumption|right].
  split; [assumption|exact H2].
Qed.

(** A canonical double of value at most [2^15] compares [<= 32768.0]. *)
Lemma ub_canonical_leb (m : positive) (e : Z) :
  fexp d_prec d_emax (Z.log2 (Zpos m) + 1 + e) = e ->
  ub 1 15 (S754_finite false m e) ->
  SFleb (S754_finite false m e) (double_of_int 32768) = true.
Proof.
  intros Hc [He Hm].
  change (double_of_int 32768) with (S754_finite false 4503599627370496 (-37)).
  apply SFleb_finite_pos_Z.
  assert (HL : Z.log2 (Zpos m) <= 15 - e).
  { rewrite <- (Z.log2_pow2 (15 - e)) by lia. apply Z.log2_le_mono. lia. }
  unfold fexp, emin, d_prec, d_emax in Hc.
  destruct (Z.eq_dec e (-37)) as [->|Hne]; [right|left; lia].
  split; [reflexivity|].
  change (1 * 2 ^ (15 - -37)) with 4503599627370496 in Hm. exact Hm.
Qed.

(** X10: the result always lies between [0.0] and [32768.0]: it is
    finite, never an infinity or NaN, for every count and every buffer of
    signed 16-bit samples. *)
Theorem vox_rms_int16_range (m : mem) (samples n : Z) (buf : list Z) :
  int_range n ->
  (0 < n -> Z.of_nat (length buf) = n) ->
  array_i16 m samples buf ->
  exists v,
    vox_rms_int16 samples n m = Some (v, m) /\
    SFleb d_zero v = true /\ SFleb v (double_of_int 32768) = true.
Proof.
  intros Hr Hlen HA. destruct (Z_le_gt_dec n 0) as [Hn|Hn].
  { exists d_zero. unfold vox_rms_int16.
    destruct (Z.leb_spec n 0); [|lia]. repeat split; reflexivity. }
  specialize (Hlen ltac:(lia)).
  rewrite (vox_rms_int16_run m samples n buf ltac:(lia) Hlen HA).
  eexists. split; [reflexivity|].
  destruct (double_of_int_count_value n ltac:(lia) Hr)
    as (my & ey & -> & Hey & Hmy & Hly).
  pose proof (array_i16_range m buf samples HA) as Hrange.
  assert (Hsum : ub n 30 (fold_left rms_step buf d_zero)).
  { rewrite <- Hlen. apply (fold_ub buf Hrange 0 d_zero); [lia| |exact I].
    unfold int_range in Hr. lia. }
  pose proof (d_sqrt_ub _ (d_div_ub n _ my ey ltac:(lia) Hsum Hey Hmy Hly)) as Hub.
  destruct (all_zero_or_not buf) as [Hz|HE].
  { rewrite (fold_all_zero buf Hz). split; reflexivity. }
  assert (Hlow : pow2_le (-31)
                   (d_div (fold_left rms_step buf d_zero) (S754_finite false my ey))).
  { apply (d_div_pow2_le 0 30); [lia| |].
    - apply fold_pow2_le; [assumption|assumption|reflexivity].
    - pose proof (Z.log2_lt_pow2 n 31 ltac:(lia)) as [Hl _].
      unfold int_range in Hr. specialize (Hl ltac:(lia)). lia. }
  destruct (d_sqrt_canonical (-31) _ ltac:(lia) Hlow)
    as [Hinf|(mv & ev & Hv & Hc)].
  - rewrite Hinf in Hub. contradiction.
  - rewrite Hv in *. split; [reflexivity|]. now apply ub_canonical_leb.
Qed.

(** ** The further properties at work *)

Lemma perm_mem_samples : array_i16 perm_mem 200 perm_samples.
Proof. unfold int16_range. simpl. repeat split; (reflexivity || lia). Defined.

Lemma flip_mem_samples : array_i16 perm_mem 300 flip_samples.
Proof. unfold int16_range. simpl. repeat split; (reflexivity || lia). Defined.

Lemma demo_mem_low_sample : array_i16 demo_mem 102 [-32768].
Proof. unfold int16_range. simpl. repeat split; (reflexivity || lia). Defined.

Lemma vox_rms_int16_exact_sum_witness :
  vox_rms_int16 100 4 demo_mem =
    Some (d_sqrt (d_div (double_of_int (int_sum_sq demo_samples))
                        (double_of_int 4)), demo_mem).
Proof.
  apply vox_rms_int16_exact_sum;
    [lia | reflexivity | exact demo_mem_samples | left; lia].
Defined.

Lemma vox_rms_int16_permutation_witness :
  fst <$> vox_rms_int16 100 4 demo_mem = fst <$> vox_rms_int16 200 4 perm_mem.
Proof.
  apply (vox_rms_int16_permutation demo_mem perm_mem 100 200 4
           demo_samples perm_samples);
    [lia | reflexivity | exact demo_mem_samples | exact perm_mem_samples |].
  unfold demo_samples, perm_samples.
  eapply perm_trans; [apply perm_swap|]. do 2 apply perm_skip. apply perm_swap.
Defined.

Lemma vox_rms_int16_polarity_witness :
  fst <$> vox_rms_int16 100 4 demo_mem = fst <$> vox_rms_int16 300 4 perm_mem.
Proof.
  apply (vox_rms_int16_polarity demo_mem perm_mem 100 300 4
           demo_samples flip_samples);
    [reflexivity | exact demo_mem_samples | exact flip_mem_samples
    | reflexivity].
Defined.

Lemma vox_rms_int16_single_witness :
  vox_rms_int16 102 1 demo_mem = Some (double_of_int (Z.abs (-32768)), demo_mem).
Proof. apply vox_rms_int16_single. exact demo_mem_low_sample. Defined.

Lemma vox_pcm_to_float32_chunks_witness :
  bind (vox_pcm_to_float32 100 7 1)
       (fun _ => vox_pcm_to_float32 (100 + 1) (7 + 1) (4 - 1)) demo_mem =
  vox_pcm_to_float32 100 7 4 demo_mem.
Proof. apply (vox_pcm_to_float32_chunks demo_mem 100 7 4 1). lia. Defined.

Lemma pcm_scale_order_embedding_witness :
  SFltb (pcm_scale (-1)) (pcm_scale 1) = (-1 <? 1) /\
  SFleb (pcm_scale (-1)) (pcm_scale 1) = (-1 <=? 1) /\
  (pcm_scale (-1) = pcm_scale 1 <-> -1 = 1).
Proof.
  apply (pcm_scale_order_embedding (-1) 1); unfold int16_range; lia.
Defined.

Lemma vox_rms_int16_silence_witness :
  exists v,
    vox_rms_int16 100 4 demo_mem = Some (v, demo_mem) /\
    (v = d_zero <-> Forall (fun s => s = 0) demo_samples) /\
    (Exists (fun s => s <> 0) demo_samples ->
     SFltb d_zero v = true /\ pow2_le (-16) v).
Proof.
  apply (vox_rms_int16_silence demo_mem 100 4 demo_samples);
    [lia | unfold int_range; lia | reflexivity | exact demo_mem_samples].
Defined.

Lemma vox_rms_int16_range_witness :
  exists v,
    vox_rms_int16 100 4 demo_mem = Some (v, demo_mem) /\
    SFleb d_zero v = true /\ SFleb v (double_of_int 32768) = true.
Proof.
  apply (vox_rms_int16_range demo_mem 100 4 demo_samples);
    [unfold int_range; lia | reflexivity | exact demo_mem_samples].
Defined.
